(** * CellUniverse: the optimisation engine [Frame]

    A shallow embedding of [src/global_optimization/Frame.py].

    Conventions of the embedding.
    - Python [float] and NumPy floating arrays are idealised as real numbers
      ([R]); Python [int] is [Z]; list positions are [nat].
    - A NumPy array is a shape together with its elements in row-major order.
    - A raised exception is the [Err] branch of [result]; the mutable [Frame]
      object is threaded explicitly through every method.
    - The [Cell] class and the random generator live outside this file of the
      repository: they are interfaces ([CellApi], [RandomSource]). The
      methods of a cell return new cells and new canvases and leave the cell
      they are called on as it was. *)

From Stdlib Require Import Reals Lra ZArith String.
From Stdlib Require Floats.PrimFloat Numbers.Cyclic.Int63.Uint63.
From stdpp Require Import base list gmap.

Open Scope R_scope.

(** ** Exceptions *)

Inductive exn : Type :=
| ValueError (msg : string)
| TypeError (msg : string)
| IndexError (msg : string).

Inductive result (A : Type) : Type :=
| OK (a : A)
| Err (e : exn).
Arguments OK {A} a.
Arguments Err {A} e.

Definition bind {A B : Type} (m : result A) (k : A → result B) : result B :=
  match m with
  | OK a => k a
  | Err e => Err e
  end.

Notation "'let*' x ':=' m 'in' k" := (bind m (fun x => k))
  (at level 10, x pattern, m at level 100, k at level 200).

Definition raises {A : Type} (m : result A) : Prop := ∃ e, m = Err e.

(** ** NumPy arrays *)

Record ndarray : Type := NDArray { shape : list nat; data : list R }.

(** Number of elements of an array of shape [sh]. *)
Definition size_of (sh : list nat) : nat := foldr Nat.mul 1%nat sh.

(** All multi-indices of a shape, in row-major order. *)
Fixpoint indices (sh : list nat) : list (list nat) :=
  match sh with
  | [] => [[]]
  | n :: sh' => i ← seq 0 n; (cons i) <$> indices sh'
  end.

(** Row-major position of a multi-index. *)
Fixpoint offset (sh idx : list nat) : nat :=
  match sh, idx with
  | _ :: sh', i :: idx' => (i * size_of sh' + offset sh' idx')%nat
  | _, _ => 0%nat
  end.

(** [a[idx]] *)
Definition item (a : ndarray) (idx : list nat) : R :=
  nth (offset (shape a) idx) (data a) 0.

(** The array of shape [sh] whose element at [idx] is [f idx]. *)
Definition tabulate (sh : list nat) (f : list nat → R) : ndarray :=
  NDArray sh (f <$> indices sh).

(** [np.full(shape, c)] *)
Definition np_full (sh : list nat) (c : R) : ndarray :=
  NDArray sh (replicate (size_of sh) c).

(** [np.array(imgs)] on a list of arrays: stacks them along a new first axis;
    the empty list gives the one-dimensional empty array, and arrays of
    different shapes are refused. *)
Definition np_array (imgs : list ndarray) : result ndarray :=
  match imgs with
  | [] => OK (NDArray [0%nat] [])
  | a :: _ =>
      if decide (Forall (λ b, shape b = shape a) imgs)
      then OK (NDArray (length imgs :: shape a) (concat (data <$> imgs)))
      else Err (ValueError "inhomogeneous shape")
  end.

(** Broadcasting of two axis lengths. *)
Definition bdim (m n : nat) : option nat :=
  if decide (m = n) then Some m
  else if decide (m = 1%nat) then Some n
  else if decide (n = 1%nat) then Some m
  else None.

(** Broadcasting of two shapes given last axis first. *)
Fixpoint broadcast_rev (r1 r2 : list nat) : option (list nat) :=
  match r1, r2 with
  | [], r => Some r
  | r, [] => Some r
  | m :: r1', n :: r2' =>
      match bdim m n, broadcast_rev r1' r2' with
      | Some d, Some r => Some (d :: r)
      | _, _ => None
      end
  end.

(** [np.broadcast_shapes]: shapes are aligned on their last axis. *)
Definition broadcast_shapes (s1 s2 : list nat) : option (list nat) :=
  reverse <$> broadcast_rev (reverse s1) (reverse s2).

(** The index of the operand of shape [sh] that feeds index [idx] of the
    broadcast result: leading axes the operand lacks are dropped and an axis
    of length one is read at 0. *)
Definition bindex (sh idx : list nat) : list nat :=
  zip_with (λ n i, if decide (n = 1%nat) then 0%nat else i)
           sh (drop (length idx - length sh) idx).

(** [a - b] on arrays. *)
Definition np_sub (a b : ndarray) : result ndarray :=
  match broadcast_shapes (shape a) (shape b) with
  | Some sh =>
      OK (tabulate sh (λ idx, item a (bindex (shape a) idx)
                              - item b (bindex (shape b) idx)))
  | None => Err (ValueError "operands could not be broadcast together")
  end.

(** [np.linalg.norm(a)] with the default order: the 2-norm of the flattened
    array. *)
Definition sum_sq (l : list R) : R := foldr (λ x acc, x * x + acc) 0 l.
Definition np_linalg_norm (a : ndarray) : R := sqrt (sum_sq (data a)).

(** [np.pad(a, ((0, 0), (p, p), (p, p)), mode='constant', constant_values=c)]:
    defined on three-dimensional arrays and non-negative widths. *)
Definition np_pad (a : ndarray) (p : Z) (c : R) : result ndarray :=
  match shape a with
  | [d; h; w] =>
      if (p <? 0)%Z then Err (ValueError "index can't contain negative values")
      else
        let n := Z.to_nat p in
        OK (tabulate [d; (h + 2 * n)%nat; (w + 2 * n)%nat]
              (λ idx,
                 match idx with
                 | [k; i; j] =>
                     if decide (n ≤ i < n + h ∧ n ≤ j < n + w)%nat
                     then item a [k; (i - n)%nat; (j - n)%nat]
                     else c
                 | _ => c
                 end))
  | _ => Err (ValueError "pad_width does not match the number of axes")
  end.

(** ** Configuration *)

(** Modelled from the spec: the class [SimulationConfig] of [Config.py],
    which is not among the sources; the spec lists its numeric fields (slice
    count, slice spacing, padding width, background intensity) and the code
    reads them under these names. *)
Module Config.
Record SimulationConfig : Type := Build {
  z_scaling : R;
  z_slices : Z;
  padding : Z;
  background_color : R
}.
End Config.
Abbreviation SimulationConfig := Config.SimulationConfig.

(** [range(n)] *)
Definition range (n : Z) : list Z := Z.of_nat <$> seq 0 (Z.to_nat n).

(** The z coordinates computed on the first line of [Frame.__init__]:
    [[z_scaling * (i - z_slices // 2) for i in range(z_slices)]]. *)
Definition init_z_slices (cfg : SimulationConfig) : list R :=
  (λ i, Config.z_scaling cfg * IZR (i - Config.z_slices cfg / 2)) <$> range (Config.z_slices cfg).

(** The same line on machine numbers: [z_scaling] a binary64 float, the
    integer converted to a float (exactly, for the counts a stack can have)
    and the product rounded. *)
Module Binary64.

Definition float_of_int (k : Z) : PrimFloat.float :=
  if (k <? 0)%Z then PrimFloat.opp (PrimFloat.of_uint63 (Uint63.of_Z (- k)))
  else PrimFloat.of_uint63 (Uint63.of_Z k).

Definition init_z_slices (z_scaling : PrimFloat.float) (z_slices : Z)
    : list PrimFloat.float :=
  (λ i, PrimFloat.mul z_scaling (float_of_int (i - z_slices / 2))) <$> range z_slices.

(** The binary64 number nearest to 0.1. *)
Definition tenth : PrimFloat.float :=
  Eval cbv in PrimFloat.div (float_of_int 1) (float_of_int 10).

End Binary64.


(** Consecutive entries of [l] differ by exactly [s]. *)
Definition spaced_by (s : R) (l : list R) : Prop :=
  ∀ i a b, l !! i = Some a → l !! S i = Some b → b - a = s.

(** ** Collaborators of the engine *)

(** A Python [dict] with string keys, in insertion order. *)
Definition dict (V : Type) : Type := list (string * V).

Fixpoint dict_set {V : Type} (k : string) (v : V) (d : dict V) : dict V :=
  match d with
  | [] => [(k, v)]
  | (k', v') :: d' =>
      if String.eqb k' k then (k', v) :: d' else (k', v') :: dict_set k v d'
  end.

Fixpoint dict_get {V : Type} (k : string) (d : dict V) : option V :=
  match d with
  | [] => None
  | (k', v') :: d' => if String.eqb k' k then Some v' else dict_get k d'
  end.

(** A field of a cell's parameter record: the name is a string, the others
    are numbers. *)
Inductive pvalue : Type :=
| PStr (s : string)
| PNum (x : R).

(** The capability the engine consumes from the abstract class [Cell] of
    [Cells.py]. [draw] writes into the canvas it is given and returns it: it
    cannot change the canvas' shape. [get_cell_params] stands for
    [cell.get_cell_params().__dict__]. The perturbed variant is random. *)
Class CellApi (Cell Rng : Type) : Type := {
  draw : Cell → ndarray → SimulationConfig → R → ndarray;
  get_perturbed_cell : Cell → Rng → Cell * Rng;
  get_paramaterized_cell : Cell → dict R → Cell;
  get_cell_params : Cell → dict pvalue;
  draw_in_place : ∀ c img cfg z,
    shape (draw c img cfg z) = shape img
    ∧ length (data (draw c img cfg z)) = length (data img)
}.

(** The state of Python's [random] module: it yields raw integers. *)
Class RandomSource (Rng : Type) : Type := next_raw : Rng → Z * Rng.

(** [random.randint(a, b)]: an integer of [a..b], an error on an empty
    range. *)
Definition randint `{RandomSource Rng} (a b : Z) (g : Rng) : result (Z * Rng) :=
  if (b <? a)%Z then Err (ValueError "empty range for randrange()")
  else let '(r, g') := next_raw g in OK ((a + r mod (b - a + 1))%Z, g').

(** [l[i]] and [l[i] = x] on a Python list, for a position [i >= 0]. *)
Definition getitem {A : Type} (l : list A) (i : nat) : result A :=
  match l !! i with
  | Some x => OK x
  | None => Err (IndexError "list index out of range")
  end.

Definition setitem {A : Type} (l : list A) (i : nat) (x : A) : result (list A) :=
  if decide (i < length l)%nat then OK (<[i:=x]> l)
  else Err (IndexError "list assignment index out of range").

(** [directions = defaultdict(dict)] in [gradient_descent], keyed by cell
    position. *)
Abbreviation directions_t := (gmap nat (dict R)).

(** Hyper-parameters of [gradient_descent]. *)
Definition moving_delta : R := 1.
Definition delta : R := 1 / 1000.
Definition alpha : R := 1 / 10.

(** ** The class [Frame] *)

Section FrameModel.
Context {Cell Rng : Type} `{!CellApi Cell Rng} `{!RandomSource Rng}.

(** The attributes of a [Frame] object. [cells] is [None] or a list. *)
Record Frame : Type := mkFrame {
  z_slices : list R;
  cells : option (list Cell);
  simulation_config : SimulationConfig;
  output_path : string;
  image_name : string;
  _real_image_stack : ndarray;
  real_image_stack : ndarray;
  synth_image_stack : ndarray
}.

Definition set_cells (f : Frame) (cl : list Cell) : Frame :=
  mkFrame (z_slices f) (Some cl) (simulation_config f) (output_path f)
          (image_name f) (_real_image_stack f) (real_image_stack f)
          (synth_image_stack f).

Definition set_synth_image_stack (f : Frame) (s : ndarray) : Frame :=
  mkFrame (z_slices f) (cells f) (simulation_config f) (output_path f)
          (image_name f) (_real_image_stack f) (real_image_stack f) s.

(** What reading [self.cells] as a sequence does: [None] has no length and
    cannot be iterated or indexed. *)
Definition cells_seq (f : Frame) : result (list Cell) :=
  match cells f with
  | Some cl => OK cl
  | None => Err (TypeError "'NoneType' is not a sequence")
  end.

(** One slice of the synthetic stack: the body of the loop over [z_slices]
    in [generate_synth_images]. *)
Definition synth_slice (sh : list nat) (cfg : SimulationConfig)
    (cl : list Cell) (z : R) : ndarray :=
  foldl (λ synth_image cell, draw cell synth_image cfg z)
        (np_full sh (Config.background_color cfg)) cl.

(** [generate_synth_images] as a function of the attributes it reads; the
    image shape is [get_image_shape()], that is [real_image_stack.shape[1:]]. *)
Definition render (zs : list R) (cfg : SimulationConfig)
    (cs : option (list Cell)) (real : ndarray) : result ndarray :=
  match cs with
  | None => Err (ValueError "Cells are not set")
  | Some cl => np_array (synth_slice (drop 1 (shape real)) cfg cl <$> zs)
  end.

Definition get_image_shape (f : Frame) : list nat :=
  drop 1 (shape (real_image_stack f)).

Definition generate_synth_images (f : Frame) : result ndarray :=
  render (z_slices f) (simulation_config f) (cells f) (real_image_stack f).

Definition calculate_cost (f : Frame) (synth : ndarray) : result R :=
  let* d := np_sub (real_image_stack f) synth in
  OK (np_linalg_norm d).

(** [pad_real_image], on the stack it reads and rewrites. *)
Definition pad_real_image (cfg : SimulationConfig) (real : ndarray) : result ndarray :=
  np_pad real (Config.padding cfg) (Config.background_color cfg).

(** [Frame.__init__] *)
Definition init (real : ndarray) (cfg : SimulationConfig)
    (cs : option (list Cell)) (out name : string) : result Frame :=
  let zs := init_z_slices cfg in
  let* padded := pad_real_image cfg real in
  let* synth := render zs cfg cs padded in
  OK (mkFrame zs cs cfg out name real padded synth).

(** The closure [callback] returned by [perturb]; it acts on the [Frame] as
    it is when called. *)
Definition callback (index : nat) (old_cell : Cell)
    (new_synth_image_stack : ndarray) (accept : bool) (f : Frame) : result Frame :=
  if accept then
    let* cl := cells_seq f in
    let* cl' := setitem cl index old_cell in
    OK (set_cells f cl')
  else
    OK (set_synth_image_stack f new_synth_image_stack).

(** [perturb]: the cost difference, the closure, then the mutated [Frame]
    and generator. *)
Definition perturb (f : Frame) (g : Rng)
    : result (R * (bool → Frame → result Frame) * Frame * Rng) :=
  let* cl := cells_seq f in
  let* (k, g1) := randint 0 (Z.of_nat (length cl) - 1) g in
  let index := Z.to_nat k in
  let* old_cell := getitem cl index in
  let '(new_cell, g2) := get_perturbed_cell old_cell g1 in
  let* cl1 := setitem cl index new_cell in
  let f1 := set_cells f cl1 in
  let* new_synth_image_stack := generate_synth_images f1 in
  let* new_cost := calculate_cost f1 new_synth_image_stack in
  let* old_cost := calculate_cost f1 (synth_image_stack f1) in
  OK (old_cost - new_cost, callback index old_cell new_synth_image_stack, f1, g2).

(** *** [gradient_descent] *)

(** [directions[index]]: a position not yet written holds the empty
    dictionary. *)
Definition directions_at (d : directions_t) (index : nat) : dict R :=
  default [] (d !! index).

(** The body of the loop over the parameters for one parameter that is not
    the name: probe, render, cost, gradient, reset. *)
Definition probe (f : Frame) (index : nat) (old_cell : Cell) (orig_cost : R)
    (param : string) : result (Frame * R) :=
  let perterb_param : dict R := [(param, moving_delta)] in
  let* cl := cells_seq f in
  let* cur := getitem cl index in
  let* cl1 := setitem cl index (get_paramaterized_cell cur perterb_param) in
  let f1 := set_cells f cl1 in
  let* new_synth_image_stack := generate_synth_images f1 in
  let* new_cost := calculate_cost f1 new_synth_image_stack in
  let gradient := (new_cost - orig_cost) / delta in
  let* cl2 := setitem cl1 index old_cell in
  OK (set_cells f1 cl2, gradient).

(** The loop [for param, val in params.items()]. *)
Fixpoint param_loop (f : Frame) (index : nat) (old_cell : Cell) (orig_cost : R)
    (params : dict pvalue) (param_gradients : dict R)
    : result (Frame * dict R) :=
  match params with
  | [] => OK (f, param_gradients)
  | (param, _) :: rest =>
      if String.eqb param "name" then
        param_loop f index old_cell orig_cost rest param_gradients
      else
        let* (f', gradient) := probe f index old_cell orig_cost param in
        param_loop f' index old_cell orig_cost rest
                   (dict_set param gradient param_gradients)
  end.

(** The loop [for param, gradient in param_gradients.items()]. *)
Definition direction_loop (index : nat) (param_gradients : dict R)
    (directions : directions_t) : directions_t :=
  foldl (λ d '(param, gradient),
           <[index := dict_set param (-1 * alpha * gradient) (directions_at d index)]> d)
        directions param_gradients.

(** The first loop over [enumerate(cell_list)]; [cell_list] is the very list
    [self.cells], whose length no step changes, so the positions visited are
    [idxs = 0 .. len - 1] and each cell is read when its turn comes.
    [deepcopy(cell)] is the value [cell]. *)
Fixpoint gradient_loop (f : Frame) (orig_cost : R) (idxs : list nat)
    (directions : directions_t) : result (Frame * directions_t) :=
  match idxs with
  | [] => OK (f, directions)
  | index :: rest =>
      let* cl := cells_seq f in
      let* cell := getitem cl index in
      let old_cell := cell in
      let params := get_cell_params cell in
      let* (f', param_gradients) := param_loop f index old_cell orig_cost params [] in
      gradient_loop f' orig_cost rest (direction_loop index param_gradients directions)
  end.

(** The second loop over [enumerate(cell_list)]: the shift of every cell. *)
Fixpoint apply_loop (f : Frame) (idxs : list nat) (directions : directions_t)
    : result Frame :=
  match idxs with
  | [] => OK f
  | index :: rest =>
      let* cl := cells_seq f in
      let* cur := getitem cl index in
      let* cl' := setitem cl index (get_paramaterized_cell cur (directions_at directions index)) in
      apply_loop (set_cells f cl') rest directions
  end.

(** [gradient_descent]; it returns nothing, the result is the [Frame]. *)
Definition gradient_descent (f : Frame) : result Frame :=
  let* orig_cost := calculate_cost f (synth_image_stack f) in
  let* cell_list := cells_seq f in
  let idxs := seq 0 (length cell_list) in
  let* (f1, directions) := gradient_loop f orig_cost idxs ∅ in
  let* f2 := apply_loop f1 idxs directions in
  let* synth := generate_synth_images f2 in
  let f3 := set_synth_image_stack f2 synth in
  let* new_cost := calculate_cost f3 (synth_image_stack f3) in
  OK f3.

End FrameModel.
Arguments Frame : clear implicits.

(** The protocol of use: a perturbation trial finalised once by its closure,
    or a gradient-descent pass; nothing interleaved. *)
Inductive op_step {Cell Rng : Type} `{!CellApi Cell Rng} `{!RandomSource Rng}
    : Frame Cell → Frame Cell → Prop :=
| step_trial f g d cb f1 g' accept f2 :
    perturb f g = OK (d, cb, f1, g') →
    cb accept f1 = OK f2 →
    op_step f f2
| step_pass f f' :
    gradient_descent f = OK f' →
    op_step f f'.

(** The cache agrees with the cells: rendering the current cells gives the
    cached synthetic stack. *)
Definition cache_consistent {Cell Rng : Type} `{!CellApi Cell Rng}
    (f : Frame Cell) : Prop :=
  generate_synth_images f = OK (synth_image_stack f).

(** ** A concrete cell, to run the engine on

    A [Dot] brightens every pixel of the canvas by its [level]. *)
Module Toy.

Record Dot : Type := mkDot { name : string; level : R }.

Definition draw_dot (c : Dot) (img : ndarray) (cfg : SimulationConfig) (z : R)
    : ndarray :=
  NDArray (shape img) ((λ v, v + level c) <$> data img).

Definition perturbed_dot (c : Dot) (g : list Z) : Dot * list Z :=
  (mkDot (name c) (level c + 1), g).

Definition paramaterized_dot (c : Dot) (d : dict R) : Dot :=
  mkDot (name c) (level c + default 0 (dict_get "level" d)).

Definition dot_params (c : Dot) : dict pvalue :=
  [("name"%string, PStr (name c)); ("level"%string, PNum (level c))].

Lemma draw_dot_in_place c img cfg z :
  shape (draw_dot c img cfg z) = shape img
  ∧ length (data (draw_dot c img cfg z)) = length (data img).
Proof. split; [reflexivity | apply length_fmap]. Qed.

#[export] Instance dot_api : CellApi Dot (list Z) := {|
  draw := draw_dot;
  get_perturbed_cell := perturbed_dot;
  get_paramaterized_cell := paramaterized_dot;
  get_cell_params := dot_params;
  draw_in_place := draw_dot_in_place
|}.

#[export] Instance script_source : RandomSource (list Z) :=
  λ g, match g with
       | [] => (0%Z, [])
       | r :: g' => (r, g')
       end.

(** One pixel, one slice, no padding, black background. *)
Definition cfg1 : SimulationConfig := Config.Build 1 1 0 0.
(** The same with two slices. *)
Definition cfg2 : SimulationConfig := Config.Build 1 2 0 0.

(** One slice, a padding of one pixel. *)
Definition cfg_pad : SimulationConfig := Config.Build 1 1 1 0.

Definition pixel (v : R) : ndarray := NDArray [1; 1; 1]%nat [v].

Definition dot0 : Dot := mkDot "a" 0.

(** A frame on a black pixel, with one dot and the cached pixel [s]. *)
Definition dot_frame (c : Dot) (s : R) : Frame Dot :=
  mkFrame [1 * 0] (Some [c]) cfg1 "out" "img" (pixel 0) (pixel 0) (pixel s).

(** The frame constructed from a black pixel and [dot0]. *)
Definition frame0 : Frame Dot := dot_frame dot0 (0 + 0).

(** A frame without cells. *)
Definition frame_empty : Frame Dot :=
  mkFrame [1 * 0] (Some []) cfg1 "out" "img" (pixel 0) (pixel 0) (pixel 0).

End Toy.

(** ** Reference notions the properties are stated with *)

(** The Euclidean norm of the item-wise difference of two arrays of one
    shape. *)
Definition l2_distance (a b : ndarray) : R :=
  sqrt (sum_sq ((λ idx, item a idx - item b idx) <$> indices (shape a))).

(** A shape and a list of elements make an array when their sizes agree. *)
Definition well_formed (a : ndarray) : Prop :=
  length (data a) = size_of (shape a).

(** The stack of the images [imgs], all of shape [sh]. *)
Definition stacked (sh : list nat) (imgs : list ndarray) : ndarray :=
  match imgs with
  | [] => NDArray [0%nat] []
  | _ :: _ => NDArray (length imgs :: sh) (concat (data <$> imgs))
  end.

(** Number of slices of a stack: its first axis. *)
Definition slice_count (a : ndarray) : nat := hd 0%nat (shape a).

(** *** Gradient descent, told without the mutable frame

    What the pass computes when every probe is seen as a function of the
    committed cells [cl] of the frame [f]. *)

Section DescentReference.
Context {Cell Rng : Type} `{!CellApi Cell Rng}.

(** The cost of the whole stack rendered with [c'] in place of the cell at
    [index]. *)
Definition cost_with (f : Frame Cell) (cl : list Cell) (index : nat) (c' : Cell)
    : result R :=
  let f1 := set_cells f (<[index:=c']> cl) in
  let* s := generate_synth_images f1 in
  calculate_cost f1 s.

(** The finite-difference estimate for one parameter of the cell [c]. *)
Definition gradient_estimate (f : Frame Cell) (cl : list Cell) (index : nat)
    (c : Cell) (orig_cost : R) (param : string) : result R :=
  let* new_cost :=
    cost_with f cl index (get_paramaterized_cell c [(param, moving_delta)]) in
  OK ((new_cost - orig_cost) / delta).

(** The estimates for the parameters of one cell, the name left out. *)
Fixpoint cell_gradients (f : Frame Cell) (cl : list Cell) (index : nat)
    (c : Cell) (orig_cost : R) (params : dict pvalue) (acc : dict R)
    : result (dict R) :=
  match params with
  | [] => OK acc
  | (param, _) :: rest =>
      if String.eqb param "name" then
        cell_gradients f cl index c orig_cost rest acc
      else
        let* gradient := gradient_estimate f cl index c orig_cost param in
        cell_gradients f cl index c orig_cost rest (dict_set param gradient acc)
  end.

(** The direction vector of a cell: minus the learning rate times each
    estimate. *)
Definition descent_direction (grads : dict R) : dict R :=
  (λ '(param, gradient), (param, -1 * alpha * gradient)) <$> grads.

(** The direction vectors of the cells at the positions [idxs]. *)
Fixpoint all_directions (f : Frame Cell) (cl : list Cell) (orig_cost : R)
    (idxs : list nat) (directions : directions_t) : result directions_t :=
  match idxs with
  | [] => OK directions
  | index :: rest =>
      let* c := getitem cl index in
      let* grads := cell_gradients f cl index c orig_cost (get_cell_params c) [] in
      all_directions f cl orig_cost rest (direction_loop index grads directions)
  end.

(** Every cell shifted by its own direction vector. *)
Definition shifted_cells (directions : directions_t) (cl : list Cell) : list Cell :=
  imap (λ index c, get_paramaterized_cell c (directions_at directions index)) cl.

(** A parameter the pass tunes: a field of the record other than the name. *)
Definition tunable (c : Cell) (param : string) : Prop :=
  param ∈ (get_cell_params c).*1 ∧ param ≠ "name"%string.

End DescentReference.

(** ** The views and exports of [Frame] *)

(** *** More of NumPy *)

(** [for x in a]: the sub-arrays along the first axis, in order; an array
    without axes cannot be iterated. *)
Definition np_iter (a : ndarray) : result (list ndarray) :=
  match shape a with
  | [] => Err (TypeError "iteration over a 0-d array")
  | d :: sh =>
      OK ((λ i, NDArray sh (take (size_of sh) (drop (i * size_of sh) (data a))))
            <$> seq 0 d)
  end.

(** [np.stack((a,) * 3, axis=-1)]: three copies of [a] along a new last
    axis. *)
Definition np_stack3_last (a : ndarray) : ndarray :=
  NDArray (shape a ++ [3%nat]) (v ← data a; [v; v; v]).

(** [c * a] for a number [c]. *)
Definition np_scale (c : R) (a : ndarray) : ndarray :=
  NDArray (shape a) (Rmult c <$> data a).

(** [[k(x) for x in l]] when [k] can raise: the first error stops the
    loop. *)
Fixpoint mapM {A B : Type} (k : A → result B) (l : list A) : result (list B) :=
  match l with
  | [] => OK []
  | x :: l' =>
      let* y := k x in
      let* ys := mapM k l' in
      OK (y :: ys)
  end.

(** *** Pillow and the 8-bit conversion

    [np.uint8(a)] converts to unsigned bytes and [Image.fromarray(u, mode)]
    wraps such an array in an image or refuses it; what they do to numbers
    out of range and to odd shapes is theirs to say. *)
Class ImagingApi (U8 Image : Type) : Type := {
  np_uint8 : ndarray → U8;
  Image_fromarray : U8 → option string → result Image
}.

(** The outline capability of [Cell]: [draw_outline] writes into the frame
    it is given, with a colour, at a depth. *)
Class OutlineApi (Cell : Type) : Type := {
  draw_outline : Cell → ndarray → R * R * R → R → ndarray;
  draw_outline_in_place : ∀ c img colour z,
    shape (draw_outline c img colour z) = shape img
    ∧ length (data (draw_outline c img colour z)) = length (data img)
}.

(** *** pandas

    A [DataFrame] is its column names and its rows; a row holds one entry per
    column, [None] where the record it came from had no such key. *)
Record DataFrame : Type := mkDataFrame {
  columns : list string;
  records : list (list (option pvalue))
}.

(** The position of a column name. *)
Definition column_index (cols : list string) (col : string) : option nat :=
  fst <$> list_find (λ c, c = col) cols.

(** The keys of the records, each once, in the order they first appear. *)
Definition add_keys (cols : list string) (ks : list string) : list string :=
  foldl (λ cols k, if decide (k ∈ cols) then cols else cols ++ [k]) cols ks.

Definition union_keys {V : Type} (ds : list (dict V)) : list string :=
  foldl (λ cols d, add_keys cols d.*1) [] ds.

(** [pd.DataFrame(ds)] on a list of dictionaries. *)
Definition pd_DataFrame (ds : list (dict pvalue)) : DataFrame :=
  let cols := union_keys ds in
  mkDataFrame cols ((λ d, (λ c, dict_get c d) <$> cols) <$> ds).

(** [df[col] = v] for a scalar [v]: the column is overwritten in every row if
    it exists and added at the end if not. *)
Definition df_setitem (df : DataFrame) (col : string) (v : pvalue) : DataFrame :=
  match column_index (columns df) col with
  | Some j => mkDataFrame (columns df) ((λ r, <[j:=Some v]> r) <$> records df)
  | None => mkDataFrame (columns df ++ [col]) ((λ r, r ++ [Some v]) <$> records df)
  end.

(** The entry of row [i] in column [col], when there is such a row and such
    a column. *)
Definition df_at (df : DataFrame) (i : nat) (col : string) : option (option pvalue) :=
  r ← records df !! i;
  j ← column_index (columns df) col;
  r !! j.

(** *** The methods *)

Section FrameViews.
Context {Cell Rng U8 Image : Type}
  `{!CellApi Cell Rng} `{!OutlineApi Cell} `{!ImagingApi U8 Image}.

(** [__len__] *)
Definition __len__ (f : Frame Cell) : result nat :=
  let* cl := cells_seq f in
  OK (length cl).

(** The frame handed to [Image.fromarray] for one slice of the real stack:
    three grey channels, then the outline of every cell in red. *)
Definition outlined (cl : list Cell) (real_image : ndarray) (z : R) : ndarray :=
  foldl (λ output_frame cell, draw_outline cell output_frame (1, 0, 0) z)
        (np_stack3_last real_image) cl.

(** The loop of [generate_output_images] over the pairs of
    [zip(self.real_image_stack, self.z_slices)]. *)
Fixpoint output_loop (f : Frame Cell) (pairs : list (ndarray * R))
    : result (list Image) :=
  match pairs with
  | [] => OK []
  | (real_image, z) :: rest =>
      let* cl := cells_seq f in
      let output_frame := outlined cl real_image z in
      let* img := Image_fromarray (np_uint8 (np_scale 255 output_frame)) None in
      let* imgs := output_loop f rest in
      OK (img :: imgs)
  end.

Definition generate_output_images (f : Frame Cell) : result (list Image) :=
  let* real_images := np_iter (real_image_stack f) in
  output_loop f (zip real_images (z_slices f)).

Definition generate_output_synth_images (f : Frame Cell) : result (list Image) :=
  let* synth_images := np_iter (synth_image_stack f) in
  mapM (λ synth_image,
          Image_fromarray (np_uint8 (np_scale 255 synth_image)) (Some "L"%string))
       synth_images.

(** [get_cells_as_params]; [dict(cell.get_cell_params())] is the dictionary
    of the fields of the parameter record, the one [get_cell_params] stands
    for. *)
Definition get_cells_as_params (f : Frame Cell) : result DataFrame :=
  let* cl := cells_seq f in
  let cell_params := pd_DataFrame (get_cell_params <$> cl) in
  OK (df_setitem cell_params "file" (PStr (image_name f))).

End FrameViews.

(** A concrete imaging and outline capability for [Toy.Dot]: the conversion
    keeps the array, an image is the array with its mode, and a dot has no
    outline. *)
Module ToyViews.

#[export] Instance plain_imaging : ImagingApi ndarray (ndarray * option string) := {|
  np_uint8 := λ a, a;
  Image_fromarray := λ u mode, OK (u, mode)
|}.

Lemma no_outline_in_place (c : Toy.Dot) (img : ndarray) (colour : R * R * R) (z : R) :
  shape img = shape img ∧ length (data img) = length (data img).
Proof. split; reflexivity. Qed.

#[export] Instance no_outline : OutlineApi Toy.Dot := {|
  draw_outline := λ c img colour z, img;
  draw_outline_in_place := no_outline_in_place
|}.


(** A configuration without slices. *)
Definition cfg_no_slice : SimulationConfig := Config.Build 1 0 0 0.

(** A frame whose cells are not set. *)
Definition frame_none : Frame Toy.Dot :=
  mkFrame [1 * 0] None Toy.cfg1 "out" "img" (Toy.pixel 0) (Toy.pixel 0) (Toy.pixel 0).

(** A frame whose cache is out of date. *)
Definition frame_stale : Frame Toy.Dot := Toy.dot_frame Toy.dot0 5.

(** A stack of two black pixels. *)
Definition two_pixels : ndarray := NDArray [2; 1; 1]%nat [0; 0].

End ToyViews.

(** * Properties *)

(** ** Small facts on lists, results and dictionaries *)

Lemma bind_OK {A B : Type} (m : result A) (k : A → result B) (b : B) :
  bind m k = OK b → ∃ a, m = OK a ∧ k a = OK b.
Proof. destruct m as [a|e]; simpl; [eauto | discriminate]. Qed.

Lemma getitem_OK {A : Type} (l : list A) (i : nat) (x : A) :
  getitem l i = OK x ↔ l !! i = Some x.
Proof.
  unfold getitem. destruct (l !! i); split; intros E; inversion E; reflexivity.
Qed.

Lemma setitem_OK {A : Type} (l l' : list A) (i : nat) (x : A) :
  setitem l i x = OK l' ↔ (i < length l)%nat ∧ l' = <[i:=x]> l.
Proof.
  unfold setitem. destruct (decide (i < length l)%nat) as [Hi|Hi].
  - split; [intros [= <-]; auto | intros [_ ->]; reflexivity].
  - split; [discriminate | intros [Hlt _]; contradiction].
Qed.

Lemma setitem_in_range {A : Type} (l : list A) (i : nat) (x : A) :
  (i < length l)%nat → setitem l i x = OK (<[i:=x]> l).
Proof. intros Hi. apply setitem_OK. auto. Qed.

(** Writing back what was read, after any write at the same place. *)
Lemma insert_restore {A : Type} (l : list A) (i : nat) (x y : A) :
  l !! i = Some x → <[i:=x]> (<[i:=y]> l) = l.
Proof.
  intros Hx. rewrite list_insert_insert.
  destruct (decide (i = i)); [| congruence]. apply list_insert_id, Hx.
Qed.

(** ** The z coordinates *)

Lemma range_length n : length (range n) = Z.to_nat n.
Proof. unfold range. rewrite length_fmap. apply length_seq. Qed.

Lemma range_lookup n i :
  (i < Z.to_nat n)%nat → range n !! i = Some (Z.of_nat i).
Proof.
  intros Hi. unfold range. rewrite list_lookup_fmap.
  rewrite (lookup_seq_lt 0 (Z.to_nat n) i Hi). reflexivity.
Qed.

Lemma init_z_slices_length cfg :
  length (init_z_slices cfg) = Z.to_nat (Config.z_slices cfg).
Proof. unfold init_z_slices. rewrite length_fmap. apply range_length. Qed.

Lemma init_z_slices_lookup cfg i :
  (i < Z.to_nat (Config.z_slices cfg))%nat →
  init_z_slices cfg !! i
  = Some (Config.z_scaling cfg * IZR (Z.of_nat i - Config.z_slices cfg / 2)).
Proof.
  intros Hi. unfold init_z_slices.
  rewrite list_lookup_fmap, (range_lookup _ _ Hi). reflexivity.
Qed.

Lemma init_z_slices_spaced cfg :
  spaced_by (Config.z_scaling cfg) (init_z_slices cfg).
Proof.
  intros i a b Ha Hb.
  assert (Hi : (S i < Z.to_nat (Config.z_slices cfg))%nat).
  { rewrite <- init_z_slices_length. eapply lookup_lt_Some, Hb. }
  rewrite init_z_slices_lookup in Ha by lia.
  rewrite init_z_slices_lookup in Hb by lia.
  injection Ha as <-. injection Hb as <-.
  rewrite Nat2Z.inj_succ. unfold Z.succ.
  rewrite !minus_IZR, plus_IZR. simpl. lra.
Qed.


(** ** Arrays: indices, positions and items *)

Lemma blocks_length {A : Type} (g : nat → list A) (m n s : nat) :
  (∀ k, length (g k) = m) → length (seq s n ≫= g) = (n * m)%nat.
Proof.
  intros Hg. revert s. induction n as [|n IH]; intros s; [reflexivity|].
  cbn [seq]. rewrite bind_cons, length_app, Hg, IH. reflexivity.
Qed.

Lemma blocks_lookup {A : Type} (g : nat → list A) (m n s i o : nat) :
  (∀ k, length (g k) = m) → (i < n)%nat → (o < m)%nat →
  (seq s n ≫= g) !! (i * m + o)%nat = g (s + i)%nat !! o.
Proof.
  intros Hg. revert s i. induction n as [|n IH]; intros s i Hi Ho; [lia|].
  cbn [seq]. rewrite bind_cons. destruct i as [|i].
  - rewrite Nat.add_0_r. apply lookup_app_l. rewrite Hg. exact Ho.
  - rewrite lookup_app_r by (rewrite Hg; lia). rewrite Hg.
    replace (S i * m + o - m)%nat with (i * m + o)%nat by lia.
    rewrite IH by lia. do 2 f_equal. lia.
Qed.

Lemma indices_length sh : length (indices sh) = size_of sh.
Proof.
  induction sh as [|n sh IH]; [reflexivity|]. cbn [indices size_of foldr].
  apply blocks_length. intros k. rewrite length_fmap. exact IH.
Qed.

Lemma indices_lookup sh idx :
  Forall2 lt idx sh → indices sh !! offset sh idx = Some idx.
Proof.
  intros Hv. induction Hv as [|i n idx sh Hi Hv IH]; [reflexivity|].
  cbn [indices offset].
  assert (Ho : (offset sh idx < size_of sh)%nat).
  { rewrite <- indices_length. eapply lookup_lt_Some, IH. }
  rewrite (blocks_lookup _ (size_of sh)); [| | exact Hi | exact Ho].
  - rewrite list_lookup_fmap, IH. reflexivity.
  - intros k. rewrite length_fmap. apply indices_length.
Qed.

Lemma indices_valid sh idx : idx ∈ indices sh → Forall2 lt idx sh.
Proof.
  revert idx. induction sh as [|n sh IH]; intros idx Hin.
  - apply list_elem_of_singleton in Hin as ->. constructor.
  - cbn [indices] in Hin. apply list_elem_of_bind in Hin as (i & Hin & Hi).
    apply list_elem_of_fmap in Hin as (idx' & -> & Hin).
    apply elem_of_seq in Hi. constructor; [lia | auto].
Qed.

(** Reading back a tabulated array. *)
Lemma item_tabulate sh f idx :
  Forall2 lt idx sh → item (tabulate sh f) idx = f idx.
Proof.
  intros Hv. unfold item, tabulate. cbn [shape data].
  rewrite nth_lookup, list_lookup_fmap, (indices_lookup _ _ Hv). reflexivity.
Qed.

(** ** Broadcasting a shape with itself *)

Lemma bdim_diag n : bdim n n = Some n.
Proof. unfold bdim. destruct (decide (n = n)); congruence. Qed.

Lemma broadcast_rev_diag r : broadcast_rev r r = Some r.
Proof.
  induction r as [|n r IH]; [reflexivity|].
  cbn [broadcast_rev]. rewrite bdim_diag, IH. reflexivity.
Qed.

Lemma broadcast_shapes_diag sh : broadcast_shapes sh sh = Some sh.
Proof.
  unfold broadcast_shapes. rewrite broadcast_rev_diag. cbn.
  rewrite reverse_involutive. reflexivity.
Qed.

Lemma bindex_valid sh idx : Forall2 lt idx sh → bindex sh idx = idx.
Proof.
  intros Hv. unfold bindex.
  rewrite (Forall2_length _ _ _ Hv), Nat.sub_diag, drop_0.
  induction Hv as [|i n idx sh Hi Hv IH]; [reflexivity|].
  cbn [zip_with]. rewrite IH. destruct (decide (n = 1%nat)); f_equal; lia.
Qed.

(** The difference of two arrays of one shape, item by item. *)
Lemma np_sub_same_shape a b :
  shape a = shape b →
  np_sub a b = OK (tabulate (shape a) (λ idx, item a idx - item b idx)).
Proof.
  intros Hs. unfold np_sub. rewrite <- Hs, broadcast_shapes_diag.
  unfold tabulate. do 2 f_equal. apply list_fmap_ext.
  intros i idx Hin. apply list_elem_of_lookup_2, indices_valid in Hin.
  rewrite bindex_valid by exact Hin. reflexivity.
Qed.

(** ** Arrays: the elements in row-major order *)

Lemma fmap_bind_list {A B C : Type} (h : B → C) (g : A → list B) (l : list A) :
  h <$> (l ≫= g) = l ≫= (λ x, h <$> g x).
Proof.
  induction l as [|x l IH]; [reflexivity|].
  rewrite !bind_cons, fmap_app, IH. reflexivity.
Qed.

Lemma seq_blocks m n s :
  seq s n ≫= (λ i, (λ o, (i * m + o)%nat) <$> seq 0 m) = seq (s * m) (n * m).
Proof.
  revert s. induction n as [|n IH]; intros s; [reflexivity|].
  cbn [seq]. rewrite bind_cons, IH. cbn beta.
  change (λ o, (s * m + o)%nat) with (Nat.add (s * m)).
  rewrite (fmap_add_seq (s * m) 0 m), Nat.add_0_r.
  replace (S n * m)%nat with (m + n * m)%nat by lia.
  rewrite seq_app. do 2 f_equal. lia.
Qed.

(** The positions of the indices of a shape are 0, 1, 2, ... *)
Lemma offsets_of_indices sh : offset sh <$> indices sh = seq 0 (size_of sh).
Proof.
  induction sh as [|n sh IH]; [reflexivity|].
  cbn [indices size_of foldr]. fold (size_of sh).
  change (seq 0 (n * size_of sh)) with (seq (0 * size_of sh) (n * size_of sh)).
  rewrite fmap_bind_list, <- (seq_blocks (size_of sh) n 0).
  apply list_bind_ext; [| reflexivity]. intros i.
  rewrite <- IH, <- !list_fmap_compose. reflexivity.
Qed.

Lemma tabulate_item a : well_formed a → tabulate (shape a) (item a) = a.
Proof.
  destruct a as [sh d]. unfold well_formed, tabulate, item. cbn [shape data].
  intros Hwf. f_equal.
  rewrite (list_fmap_compose (offset sh) (λ k, nth k d 0)).
  rewrite offsets_of_indices, <- Hwf.
  apply list_eq. intros i. rewrite list_lookup_fmap.
  destruct (decide (i < length d)%nat) as [Hi|Hi].
  - rewrite lookup_seq_lt by exact Hi. cbn.
    destruct (lookup_lt_is_Some_2 d i Hi) as [x Hx].
    rewrite Hx. f_equal. apply nth_lookup_Some, Hx.
  - rewrite lookup_seq_ge by lia. rewrite lookup_ge_None_2 by lia. reflexivity.
Qed.

(** On well-formed arrays of one shape [a - b] subtracts element by
    element. *)
Lemma np_sub_elementwise a b :
  shape a = shape b → well_formed a → well_formed b →
  np_sub a b = OK (NDArray (shape a) (zip_with Rminus (data a) (data b))).
Proof.
  intros Hs Ha Hb. rewrite (np_sub_same_shape _ _ Hs). unfold tabulate.
  do 2 f_equal.
  apply tabulate_item, (f_equal data) in Ha, Hb. cbn [tabulate data] in Ha, Hb.
  rewrite <- Hs in Hb. rewrite <- Ha, <- Hb.
  rewrite zip_with_fmap_l, zip_with_fmap_r, zip_with_diag. reflexivity.
Qed.

(** ** The cost evaluator *)

Lemma sum_sq_zeros l : Forall (λ x, x = 0) l → sum_sq l = 0.
Proof.
  induction 1 as [|x l -> _ IH]; [reflexivity|].
  cbn [sum_sq foldr]. fold (sum_sq l). rewrite IH. lra.
Qed.

Lemma sum_sq_swap {A : Type} (u v : A → R) (l : list A) :
  sum_sq ((λ i, u i - v i) <$> l) = sum_sq ((λ i, v i - u i) <$> l).
Proof.
  induction l as [|i l IH]; [reflexivity|].
  cbn [fmap list_fmap sum_sq foldr]. fold (sum_sq ((λ i, u i - v i) <$> l)).
  fold (sum_sq ((λ i, v i - u i) <$> l)). rewrite IH. lra.
Qed.

Lemma l2_distance_sym a b :
  shape a = shape b → l2_distance a b = l2_distance b a.
Proof.
  intros Hs. unfold l2_distance. rewrite <- Hs. f_equal. apply sum_sq_swap.
Qed.

Lemma l2_distance_self a : l2_distance a a = 0.
Proof.
  unfold l2_distance. rewrite sum_sq_zeros; [apply sqrt_0|].
  apply Forall_fmap, Forall_forall. intros idx _. simpl. lra.
Qed.

Section FrameFacts.
Context {Cell Rng : Type} `{!CellApi Cell Rng} `{!RandomSource Rng}.
Implicit Types (f : Frame Cell) (cl : list Cell) (g : Rng).

Lemma calculate_cost_same_shape f synth :
  shape (real_image_stack f) = shape synth →
  calculate_cost f synth = OK (l2_distance (real_image_stack f) synth).
Proof.
  intros Hs. unfold calculate_cost. rewrite (np_sub_same_shape _ _ Hs).
  reflexivity.
Qed.

Lemma calculate_cost_elementwise f synth :
  shape (real_image_stack f) = shape synth →
  well_formed (real_image_stack f) → well_formed synth →
  calculate_cost f synth
  = OK (sqrt (sum_sq (zip_with Rminus (data (real_image_stack f)) (data synth)))).
Proof.
  intros Hs Hr Hsy. unfold calculate_cost.
  rewrite (np_sub_elementwise _ _ Hs Hr Hsy). reflexivity.
Qed.

(** C8. On two stacks of one shape the cost evaluator returns the Euclidean
    norm of their item-wise difference; the cost is the same whichever of
    the two is the real stack, it is not negative, and the cost of a stack
    against itself is 0. *)
Theorem calculate_cost_euclidean (fa fb : Frame Cell) :
  shape (real_image_stack fa) = shape (real_image_stack fb) →
  calculate_cost fa (real_image_stack fb)
    = OK (l2_distance (real_image_stack fa) (real_image_stack fb))
  ∧ calculate_cost fb (real_image_stack fa)
    = calculate_cost fa (real_image_stack fb)
  ∧ 0 <= l2_distance (real_image_stack fa) (real_image_stack fb)
  ∧ calculate_cost fa (real_image_stack fa) = OK 0.
Proof.
  intros Hs. repeat split.
  - apply calculate_cost_same_shape, Hs.
  - rewrite !calculate_cost_same_shape by congruence.
    f_equal. symmetry. apply l2_distance_sym, Hs.
  - apply sqrt_pos.
  - rewrite calculate_cost_same_shape by reflexivity.
    f_equal. apply l2_distance_self.
Qed.

(** ** Construction and padding *)

Lemma np_pad_OK a p c b :
  np_pad a p c = OK b →
  ∃ d h w, shape a = [d; h; w] ∧ (0 <= p)%Z
    ∧ b = tabulate [d; (h + 2 * Z.to_nat p)%nat; (w + 2 * Z.to_nat p)%nat]
            (λ idx,
               match idx with
               | [k; i; j] =>
                   if decide (Z.to_nat p ≤ i < Z.to_nat p + h
                              ∧ Z.to_nat p ≤ j < Z.to_nat p + w)%nat
                   then item a [k; (i - Z.to_nat p)%nat; (j - Z.to_nat p)%nat]
                   else c
               | _ => c
               end).
Proof.
  unfold np_pad. intros Hp.
  destruct (shape a) as [|d [|h [|w [|? ?]]]]; try discriminate.
  destruct (Z.ltb_spec p 0); [discriminate|].
  injection Hp as <-. exists d, h, w. auto.
Qed.

Lemma init_OK real cfg cs out name f :
  init real cfg cs out name = OK f →
  ∃ padded synth,
    pad_real_image cfg real = OK padded
    ∧ render (init_z_slices cfg) cfg cs padded = OK synth
    ∧ f = mkFrame (init_z_slices cfg) cs cfg out name real padded synth.
Proof.
  unfold init. intros Hf.
  apply bind_OK in Hf as (padded & Hpad & Hf).
  apply bind_OK in Hf as (synth & Hsyn & Hf).
  injection Hf as <-. eauto.
Qed.

(** C7. After construction the real stack keeps its number of slices, each
    spatial axis has grown by twice the padding, every pixel of the added
    border is the background value, and the original pixels sit inside,
    shifted by the padding. *)
Theorem padded_real_stack real cfg cs out name f :
  init real cfg cs out name = OK f →
  ∃ d h w,
    let p := Z.to_nat (Config.padding cfg) in
    shape real = [d; h; w]
    ∧ (0 <= Config.padding cfg)%Z
    ∧ shape (real_image_stack f) = [d; (h + 2 * p)%nat; (w + 2 * p)%nat]
    ∧ (∀ k i j, (k < d)%nat → (i < h + 2 * p)%nat → (j < w + 2 * p)%nat →
         (i < p ∨ p + h ≤ i ∨ j < p ∨ p + w ≤ j)%nat →
         item (real_image_stack f) [k; i; j] = Config.background_color cfg)
    ∧ (∀ k i j, (k < d)%nat → (i < h)%nat → (j < w)%nat →
         item (real_image_stack f) [k; (p + i)%nat; (p + j)%nat]
         = item real [k; i; j]).
Proof.
  intros Hf. apply init_OK in Hf as (padded & synth & Hpad & _ & ->).
  apply np_pad_OK in Hpad as (d & h & w & Hsh & Hp & ->).
  exists d, h, w. cbn [real_image_stack]. repeat split; auto.
  - intros k i j Hk Hi Hj Hborder.
    rewrite item_tabulate by (repeat constructor; assumption).
    destruct (decide _) as [Hin|_]; [lia | reflexivity].
  - intros k i j Hk Hi Hj.
    rewrite item_tabulate by (repeat constructor; lia).
    destruct (decide _) as [_|Hout]; [| lia].
    do 3 f_equal; [| f_equal]; lia.
Qed.

(** ** Rendering *)

Lemma synth_slice_shape sh cfg cl z : shape (synth_slice sh cfg cl z) = sh.
Proof.
  unfold synth_slice.
  assert (Hgen : ∀ img, shape (foldl (λ synth_image cell,
                          draw cell synth_image cfg z) img cl) = shape img).
  { induction cl as [|c cl IH]; intros img; [reflexivity|].
    cbn [foldl]. rewrite IH. apply draw_in_place. }
  apply Hgen.
Qed.

Lemma np_array_homogeneous sh imgs :
  Forall (λ b, shape b = sh) imgs → np_array imgs = OK (stacked sh imgs).
Proof.
  intros Hall. destruct imgs as [|a imgs]; [reflexivity|].
  unfold np_array, stacked.
  assert (Ha : shape a = sh) by (inversion Hall; assumption).
  rewrite Ha. destruct (decide _) as [_|Hno]; [reflexivity|].
  exfalso. apply Hno. exact Hall.
Qed.

(** Rendering a list of cells never fails. *)
Lemma render_Some zs cfg cl real :
  render zs cfg (Some cl) real
  = OK (stacked (drop 1 (shape real))
          (synth_slice (drop 1 (shape real)) cfg cl <$> zs)).
Proof.
  unfold render. apply np_array_homogeneous, Forall_fmap, Forall_forall.
  intros z _. apply synth_slice_shape.
Qed.

Lemma slice_count_stacked sh imgs : slice_count (stacked sh imgs) = length imgs.
Proof. destruct imgs; reflexivity. Qed.

Lemma data_stacked sh imgs : data (stacked sh imgs) = concat (data <$> imgs).
Proof. destruct imgs; reflexivity. Qed.

(** The arrays the engine builds are well formed. *)

Lemma well_formed_tabulate sh u : well_formed (tabulate sh u).
Proof. unfold well_formed, tabulate. cbn. rewrite length_fmap. apply indices_length. Qed.

Lemma well_formed_synth_slice sh cfg cl z : well_formed (synth_slice sh cfg cl z).
Proof.
  unfold synth_slice.
  assert (Hfull : well_formed (np_full sh (Config.background_color cfg))).
  { unfold well_formed, np_full. cbn. apply length_replicate. }
  revert Hfull. generalize (np_full sh (Config.background_color cfg)).
  induction cl as [|c cl IH]; intros img Himg; [exact Himg|].
  cbn [foldl]. apply IH. unfold well_formed in *.
  destruct (draw_in_place c img cfg z) as [-> ->]. exact Himg.
Qed.

Lemma well_formed_stacked sh imgs :
  Forall (λ b, shape b = sh ∧ well_formed b) imgs → well_formed (stacked sh imgs).
Proof.
  intros Hall. unfold well_formed. rewrite data_stacked.
  assert (Hlen : length (concat (data <$> imgs)) = (length imgs * size_of sh)%nat).
  { induction Hall as [|b imgs [<- Hb] _ IH]; [reflexivity|].
    cbn [fmap list_fmap concat length]. rewrite length_app, Hb, IH. lia. }
  rewrite Hlen. destruct imgs; reflexivity.
Qed.

Lemma render_well_formed zs cfg cl real s :
  render zs cfg (Some cl) real = OK s → well_formed s.
Proof.
  rewrite render_Some. intros [= <-].
  apply well_formed_stacked, Forall_fmap, Forall_forall. intros z _.
  split; [apply synth_slice_shape | apply well_formed_synth_slice].
Qed.

(** After construction the padded real stack and the cached stack are well
    formed. *)
Lemma init_well_formed real cfg cl out name f :
  init real cfg (Some cl) out name = OK f →
  well_formed (real_image_stack f) ∧ well_formed (synth_image_stack f).
Proof.
  intros Hf. apply init_OK in Hf as (padded & synth & Hpad & Hsyn & ->).
  cbn [real_image_stack synth_image_stack]. split.
  - apply np_pad_OK in Hpad as (d & h & w & _ & _ & ->).
    apply well_formed_tabulate.
  - eapply render_well_formed, Hsyn.
Qed.

(** Construction returns on a three-dimensional stack, a padding that is
    not negative and a list of cells. *)
Lemma init_returns real cfg cl out name d h w :
  shape real = [d; h; w] → (0 <= Config.padding cfg)%Z →
  ∃ f, init real cfg (Some cl) out name = OK f.
Proof.
  intros Hsh Hp. unfold init, pad_real_image, np_pad. rewrite Hsh.
  destruct (Z.ltb_spec (Config.padding cfg) 0) as [Hneg|_]; [lia|].
  cbn [bind]. rewrite render_Some. cbn [bind]. eauto.
Qed.

Lemma generate_synth_images_Some f cl :
  cells f = Some cl →
  generate_synth_images f
  = OK (stacked (get_image_shape f)
          (synth_slice (get_image_shape f) (simulation_config f) cl
             <$> z_slices f)).
Proof. intros Hc. unfold generate_synth_images. rewrite Hc. apply render_Some. Qed.

Lemma generate_synth_images_None f :
  cells f = None →
  generate_synth_images f = Err (ValueError "Cells are not set").
Proof. intros Hc. unfold generate_synth_images. rewrite Hc. reflexivity. Qed.

(** C10. With an empty list of cells the renderer returns a stack with one
    slice per z coordinate, each of the per-slice shape of the real stack:
    the stack is well formed, it holds as many pixels as there are z
    coordinates times the size of a slice, and every one of them is the
    background colour. The renderer fails only when [cells] is [None], and
    then with its own error. *)
Theorem render_empty_cell_list f :
  cells f = Some [] →
  (∃ s, generate_synth_images f = OK s
        ∧ slice_count s = length (z_slices f)
        ∧ (z_slices f ≠ [] → shape s = length (z_slices f) :: get_image_shape f)
        ∧ well_formed s
        ∧ data s = replicate (length (z_slices f) * size_of (get_image_shape f))
                             (Config.background_color (simulation_config f))
        ∧ (∀ idx, Forall2 lt idx (shape s) →
             item s idx = Config.background_color (simulation_config f)))
  ∧ (∀ (f' : Frame Cell) e,
        generate_synth_images f' = Err e
        ↔ cells f' = None ∧ e = ValueError "Cells are not set").
Proof.
  intros Hc. split.
  - set (sh := get_image_shape f). set (bg := Config.background_color (simulation_config f)).
    set (imgs := synth_slice sh (simulation_config f) [] <$> z_slices f).
    assert (Hgen : generate_synth_images f = OK (stacked sh imgs))
      by (apply generate_synth_images_Some, Hc).
    assert (Hdata : data (stacked sh imgs)
                    = replicate (length (z_slices f) * size_of sh) bg).
    { rewrite data_stacked. unfold imgs. clear Hgen imgs.
      induction (z_slices f) as [|z zs IH]; [reflexivity|].
      cbn [fmap list_fmap concat length Nat.mul]. rewrite IH.
      rewrite replicate_add. reflexivity. }
    assert (Hwf : well_formed (stacked sh imgs)).
    { apply well_formed_stacked, Forall_fmap, Forall_forall. intros z _.
      split; [apply synth_slice_shape | apply well_formed_synth_slice]. }
    exists (stacked sh imgs). split; [exact Hgen|]. split; [| split; [| split; [| split]]].
    + rewrite slice_count_stacked. apply length_fmap.
    + intros Hz. unfold imgs. destruct (z_slices f) as [|z zs]; [congruence|].
      rewrite fmap_cons. cbn [stacked shape length]. rewrite length_fmap. reflexivity.
    + exact Hwf.
    + exact Hdata.
    + intros idx Hidx. unfold item. rewrite Hdata.
      assert (Hlt : (offset (shape (stacked sh imgs)) idx
                     < length (z_slices f) * size_of sh)%nat).
      { rewrite <- (length_replicate (length (z_slices f) * size_of sh) bg), <- Hdata.
        rewrite Hwf, <- indices_length.
        eapply lookup_lt_Some, indices_lookup, Hidx. }
      rewrite nth_lookup, (lookup_replicate_2 _ _ _ Hlt). reflexivity.
  - intros f' e. split.
    + intros He. destruct (cells f') as [cl|] eqn:Hc'.
      * rewrite (generate_synth_images_Some _ _ Hc') in He. discriminate.
      * rewrite (generate_synth_images_None _ Hc') in He.
        injection He as <-. auto.
    + intros [Hc' ->]. apply generate_synth_images_None, Hc'.
Qed.

(** C9, as the code has it. Given a list of cells and at least one z
    coordinate the renderer returns a stack with one slice per z coordinate;
    every slice is a canvas of the per-slice shape of the padded real stack,
    filled with the background value and then drawn on by every cell in list
    order. The whole stack has the shape of the padded real stack exactly
    when the real stack has as many slices as there are z coordinates. *)
Theorem synth_stack_shape f cl d sh :
  cells f = Some cl →
  z_slices f ≠ [] →
  shape (real_image_stack f) = d :: sh →
  ∃ s, generate_synth_images f = OK s
       ∧ shape s = length (z_slices f) :: sh
       ∧ data s = concat (data <$> (synth_slice sh (simulation_config f) cl
                                      <$> z_slices f))
       ∧ (∀ z, shape (synth_slice sh (simulation_config f) cl z) = sh
               ∧ synth_slice sh (simulation_config f) cl z
                 = foldl (λ synth_image cell,
                            draw cell synth_image (simulation_config f) z)
                         (np_full sh (Config.background_color (simulation_config f)))
                         cl)
       ∧ (shape s = shape (real_image_stack f) ↔ length (z_slices f) = d).
Proof.
  intros Hc Hz Hsh. eexists. split; [apply generate_synth_images_Some, Hc|].
  unfold get_image_shape. rewrite Hsh. change (drop 1 (d :: sh)) with sh.
  destruct (z_slices f) as [|z zs] eqn:Ez; [congruence|].
  assert (Hshape : shape (stacked sh (synth_slice sh (simulation_config f) cl
                                        <$> z :: zs))
                   = length (z :: zs) :: sh).
  { rewrite fmap_cons. cbn [stacked shape length]. do 2 f_equal.
    apply length_fmap. }
  split; [exact Hshape|]. split; [apply data_stacked|]. split.
  - intros z'. split; [apply synth_slice_shape | reflexivity].
  - rewrite Hshape. split; [intros [= <-] | intros <-]; reflexivity.
Qed.

(** ** Cells that are not set, and empty lists of cells *)

(** C6, as the code has it. The explicit error "Cells are not set" is raised
    when [cells] is [None]: by the renderer, and by construction once the
    padding has gone through. An empty list is accepted by both: construction
    returns, whenever the padding does, the frame whose cache is one canvas
    of background per z coordinate, and the renderer returns that stack. A
    perturbation trial on an empty list stops at the choice of a random
    position, with the error of the empty range. *)
Theorem cells_not_set (real : ndarray) (cfg : SimulationConfig)
    (out name : string) (zs : list R) (orig padded synth : ndarray) (g : Rng) :
  init (Cell := Cell) real cfg None out name
    = (let* _ := pad_real_image cfg real in
       Err (ValueError "Cells are not set"))
  ∧ generate_synth_images (mkFrame (Cell := Cell) zs None cfg out name orig padded synth)
    = Err (ValueError "Cells are not set")
  ∧ init (Cell := Cell) real cfg (Some []) out name
    = (let* padded' := pad_real_image cfg real in
       OK (mkFrame (init_z_slices cfg) (Some []) cfg out name real padded'
             (stacked (drop 1 (shape padded'))
                ((λ _, np_full (drop 1 (shape padded')) (Config.background_color cfg))
                   <$> init_z_slices cfg))))
  ∧ generate_synth_images (mkFrame (Cell := Cell) zs (Some []) cfg out name orig padded synth)
    = OK (stacked (drop 1 (shape padded))
            ((λ _, np_full (drop 1 (shape padded)) (Config.background_color cfg))
               <$> zs))
  ∧ perturb (mkFrame zs (Some []) cfg out name orig padded synth) g
    = Err (ValueError "empty range for randrange()").
Proof.
  split; [| split; [| split; [| split]]].
  - unfold init. destruct (pad_real_image cfg real); reflexivity.
  - reflexivity.
  - unfold init. destruct (pad_real_image cfg real) as [padded'|e]; [| reflexivity].
    cbn [bind]. rewrite render_Some. reflexivity.
  - unfold generate_synth_images. cbn [z_slices simulation_config cells real_image_stack].
    rewrite render_Some. reflexivity.
  - reflexivity.
Qed.

(** ** The z coordinates of a constructed frame *)


(** ** Perturbation trials *)

Lemma set_cells_same f cl : cells f = Some cl → set_cells f cl = f.
Proof. destruct f. cbn. intros ->. reflexivity. Qed.

Lemma set_cells_twice f cl cl' : set_cells (set_cells f cl) cl' = set_cells f cl'.
Proof. reflexivity. Qed.

(** What a successful call of [perturb] has done. *)
Lemma perturb_OK f g d cb f1 g' :
  perturb f g = OK (d, cb, f1, g') →
  ∃ cl index old_cell new_cell g1 new_synth new_cost old_cost,
    cells f = Some cl
    ∧ cl !! index = Some old_cell
    ∧ get_perturbed_cell old_cell g1 = (new_cell, g')
    ∧ f1 = set_cells f (<[index:=new_cell]> cl)
    ∧ generate_synth_images f1 = OK new_synth
    ∧ calculate_cost f1 new_synth = OK new_cost
    ∧ calculate_cost f1 (synth_image_stack f) = OK old_cost
    ∧ d = old_cost - new_cost
    ∧ cb = callback index old_cell new_synth.
Proof.
  unfold perturb. intros Hp.
  apply bind_OK in Hp as (cl & Hcl & Hp).
  apply bind_OK in Hp as ([k g1] & _ & Hp).
  apply bind_OK in Hp as (old_cell & Hold & Hp).
  destruct (get_perturbed_cell old_cell g1) as [new_cell g2] eqn:Hnew.
  apply bind_OK in Hp as (cl1 & Hset & Hp).
  apply bind_OK in Hp as (new_synth & Hgen & Hp).
  apply bind_OK in Hp as (new_cost & Hnc & Hp).
  apply bind_OK in Hp as (old_cost & Hoc & Hp).
  injection Hp as <- <- <- <-.
  apply getitem_OK in Hold. apply setitem_OK in Hset as [_ ->].
  unfold cells_seq in Hcl. destruct (cells f) as [cl0|] eqn:Hc; [| discriminate].
  injection Hcl as ->.
  exists cl, (Z.to_nat k), old_cell, new_cell, g1, new_synth, new_cost, old_cost.
  repeat split; auto.
Qed.

(** What the closure does to the frame [perturb] left behind: called with
    [true] it puts the old cell back, which gives the frame of before the
    trial, cache included; called with [false] it leaves the cells alone and
    stores the stack rendered during the trial. *)
Lemma perturb_callback f g d cb f1 g' :
  perturb f g = OK (d, cb, f1, g') →
  cb true f1 = OK f
  ∧ ∃ new_synth, generate_synth_images f1 = OK new_synth
                 ∧ cb false f1 = OK (set_synth_image_stack f1 new_synth).
Proof.
  intros Hp.
  apply perturb_OK in Hp
    as (cl & index & old_cell & new_cell & g1 & new_synth & new_cost & old_cost
        & Hc & Hold & _ & -> & Hgen & _ & _ & _ & ->).
  split; [| exists new_synth; split; [exact Hgen | reflexivity]].
  unfold callback. cbn [set_cells cells_seq cells bind].
  rewrite setitem_in_range
    by (rewrite length_insert; eapply lookup_lt_Some, Hold).
  cbn [bind]. rewrite set_cells_twice, (insert_restore _ _ _ _ Hold).
  f_equal. apply set_cells_same, Hc.
Qed.

(** ** The cache invariant *)

Lemma init_consistent real cfg cs out name f :
  init real cfg cs out name = OK f → cache_consistent f.
Proof.
  intros Hf. apply init_OK in Hf as (padded & synth & _ & Hsyn & ->).
  exact Hsyn.
Qed.

(** ** Dictionaries *)

Lemma dict_set_fresh {V : Type} (k : string) (v : V) (d : dict V) :
  k ∉ d.*1 → dict_set k v d = d ++ [(k, v)].
Proof.
  induction d as [|[k' v'] d IH]; intros Hk; [reflexivity|].
  cbn [dict_set]. cbn in Hk. apply not_elem_of_cons in Hk as [Hne Hk].
  destruct (String.eqb_spec k' k) as [->|_]; [congruence|].
  rewrite (IH Hk). reflexivity.
Qed.

Lemma dict_set_keys {V : Type} (k : string) (v : V) (d : dict V) :
  (dict_set k v d).*1 = if decide (k ∈ d.*1) then d.*1 else d.*1 ++ [k].
Proof.
  induction d as [|[k' v'] d IH]; [reflexivity|].
  cbn [dict_set]. destruct (String.eqb_spec k' k) as [->|Hne].
  - cbn. rewrite decide_True by left. reflexivity.
  - cbn. rewrite IH. destruct (decide (k ∈ d.*1)) as [Hin|Hin].
    + rewrite decide_True by (right; exact Hin). reflexivity.
    + rewrite decide_False; [reflexivity|].
      intros Hyes. apply elem_of_cons in Hyes as [->|Hyes]; congruence.
Qed.

Lemma dict_set_NoDup {V : Type} (k : string) (v : V) (d : dict V) :
  NoDup d.*1 → NoDup (dict_set k v d).*1.
Proof.
  intros Hd. rewrite dict_set_keys. destruct (decide _) as [_|Hk]; [exact Hd|].
  apply NoDup_app. repeat split; [exact Hd | | apply NoDup_singleton].
  intros x Hx Hx'. apply list_elem_of_singleton in Hx' as ->. contradiction.
Qed.

Lemma dict_get_set {V : Type} (k k' : string) (v : V) (d : dict V) :
  dict_get k' (dict_set k v d) = if decide (k = k') then Some v else dict_get k' d.
Proof.
  induction d as [|[k0 v0] d IH].
  - cbn. destruct (String.eqb_spec k k'), (decide (k = k')); congruence.
  - cbn [dict_set]. destruct (String.eqb_spec k0 k) as [->|Hne]; cbn [dict_get].
    + destruct (String.eqb_spec k k'), (decide (k = k')); congruence.
    + rewrite IH. destruct (String.eqb_spec k0 k'), (decide (k = k')); congruence.
Qed.

Lemma dict_get_key {V : Type} (k : string) (d : dict V) :
  k ∈ d.*1 → ∃ v, dict_get k d = Some v.
Proof.
  induction d as [|[k0 v0] d IH]; cbn; intros Hk.
  - apply elem_of_nil in Hk as [].
  - destruct (String.eqb_spec k0 k) as [->|Hne]; [eauto|].
    apply elem_of_cons in Hk as [->|Hk]; [congruence | auto].
Qed.

(** Filling an empty dictionary from the items of a dictionary. *)
Lemma dict_refill {V W : Type} (h : V → W) (l : dict V) (d0 : dict W) :
  NoDup (d0.*1 ++ l.*1) →
  foldl (λ d '(k, v), dict_set k (h v) d) d0 l
  = d0 ++ ((λ '(k, v), (k, h v)) <$> l).
Proof.
  revert d0. induction l as [|[k v] l IH]; intros d0 Hnd.
  - cbn. rewrite app_nil_r. reflexivity.
  - cbn [foldl fmap list_fmap]. cbn in Hnd.
    assert (Hk : k ∉ d0.*1).
    { apply NoDup_app in Hnd as (_ & Hdisj & _). intros Hin.
      apply (Hdisj _ Hin). left. }
    rewrite (dict_set_fresh _ _ _ Hk), IH.
    + rewrite <- app_assoc. reflexivity.
    + rewrite fmap_app, <- app_assoc. exact Hnd.
Qed.

(** ** Gradient descent: the loops leave the frame as it was *)

Lemma cells_seq_Some f cl : cells f = Some cl → cells_seq f = OK cl.
Proof. unfold cells_seq. intros ->. reflexivity. Qed.

(** A probe returns the frame it started from, with the estimate. *)
Lemma probe_eq f cl index c orig_cost param :
  cells f = Some cl → cl !! index = Some c →
  probe f index c orig_cost param
  = (let* gradient := gradient_estimate f cl index c orig_cost param in
     OK (f, gradient)).
Proof.
  intros Hc Hi. unfold probe, gradient_estimate, cost_with.
  rewrite (cells_seq_Some _ _ Hc). cbn [bind].
  apply getitem_OK in Hi as Hget. rewrite Hget. cbn [bind].
  assert (Hlt : (index < length cl)%nat) by (eapply lookup_lt_Some, Hi).
  rewrite (setitem_in_range _ _ _ Hlt). cbn [bind].
  destruct (generate_synth_images _) as [s|e]; [| reflexivity]. cbn [bind].
  destruct (calculate_cost _ s) as [new_cost|e]; [| reflexivity]. cbn [bind].
  rewrite setitem_in_range by (rewrite length_insert; exact Hlt). cbn [bind].
  rewrite set_cells_twice, (insert_restore _ _ _ _ Hi), (set_cells_same _ _ Hc).
  reflexivity.
Qed.

Lemma param_loop_eq f cl index c orig_cost params acc :
  cells f = Some cl → cl !! index = Some c →
  param_loop f index c orig_cost params acc
  = (let* grads := cell_gradients f cl index c orig_cost params acc in
     OK (f, grads)).
Proof.
  intros Hc Hi. revert acc. induction params as [|[param val] rest IH]; intros acc.
  - reflexivity.
  - cbn [param_loop cell_gradients].
    destruct (String.eqb param "name"); [apply IH|].
    rewrite (probe_eq _ _ _ _ _ _ Hc Hi).
    destruct (gradient_estimate f cl index c orig_cost param) as [gr|e];
      [| reflexivity].
    cbn [bind]. apply IH.
Qed.

Lemma gradient_loop_eq f cl orig_cost idxs (directions : gmap nat (dict R)) :
  cells f = Some cl →
  gradient_loop f orig_cost idxs directions
  = (let* directions' := all_directions f cl orig_cost idxs directions in
     OK (f, directions')).
Proof.
  intros Hc. revert directions. induction idxs as [|index rest IH]; intros directions.
  - reflexivity.
  - cbn [gradient_loop all_directions].
    rewrite (cells_seq_Some _ _ Hc). cbn [bind].
    destruct (getitem cl index) as [c|e] eqn:Hget; [| reflexivity]. cbn [bind].
    apply getitem_OK in Hget.
    rewrite (param_loop_eq _ _ _ _ _ _ _ Hc Hget).
    destruct (cell_gradients _ _ _ _ _ _ _) as [grads|e]; [| reflexivity].
    cbn [bind]. apply IH.
Qed.

(** The shift of the cells at positions [k .. k + n - 1]. *)
Lemma apply_loop_seq f cl directions k n :
  cells f = Some cl → (k + n ≤ length cl)%nat →
  ∃ cl', apply_loop f (seq k n) directions = OK (set_cells f cl')
         ∧ length cl' = length cl
         ∧ ∀ i, cl' !! i
                = if decide (k ≤ i < k + n)%nat
                  then (λ c, get_paramaterized_cell c (directions_at directions i))
                         <$> cl !! i
                  else cl !! i.
Proof.
  revert f cl k. induction n as [|n IH]; intros f cl k Hc Hle.
  - exists cl. cbn [seq apply_loop]. rewrite (set_cells_same _ _ Hc).
    repeat split. intros i. rewrite decide_False by lia. reflexivity.
  - cbn [seq apply_loop]. rewrite (cells_seq_Some _ _ Hc). cbn [bind].
    destruct (cl !! k) as [c|] eqn:Hk;
      [| apply lookup_ge_None in Hk; lia].
    apply getitem_OK in Hk as Hget. rewrite Hget. cbn [bind].
    rewrite setitem_in_range by lia. cbn [bind].
    set (c' := get_paramaterized_cell c (directions_at directions k)).
    destruct (IH (set_cells f (<[k:=c']> cl)) (<[k:=c']> cl) (S k))
      as (cl' & Hrun & Hlen & Hget');
      [reflexivity | rewrite length_insert; lia |].
    exists cl'. rewrite Hrun, Hlen, length_insert. repeat split.
    intros i. rewrite Hget'. destruct (decide (i = k)) as [->|Hne].
    + rewrite decide_False by lia. rewrite decide_True by lia.
      rewrite list_lookup_insert_eq by lia. rewrite Hk. reflexivity.
    + rewrite list_lookup_insert_ne by congruence.
      destruct (decide (S k ≤ i < S k + n)%nat);
        [rewrite decide_True by lia | rewrite decide_False by lia]; reflexivity.
Qed.

Lemma apply_loop_eq f cl directions :
  cells f = Some cl →
  apply_loop f (seq 0 (length cl)) directions
  = OK (set_cells f (shifted_cells directions cl)).
Proof.
  intros Hc.
  destruct (apply_loop_seq f cl directions 0 (length cl) Hc)
    as (cl' & -> & Hlen & Hget); [lia|].
  do 2 f_equal. apply list_eq. intros i. rewrite Hget.
  unfold shifted_cells. rewrite list_lookup_imap.
  destruct (decide (0 ≤ i < 0 + length cl)%nat) as [_|Hout]; [reflexivity|].
  rewrite lookup_ge_None_2 by lia. reflexivity.
Qed.

(** The whole pass, with the loops replaced by what they compute. *)
Lemma gradient_descent_eq f :
  gradient_descent f
  = (let* orig_cost := calculate_cost f (synth_image_stack f) in
     let* cl := cells_seq f in
     let* directions := all_directions f cl orig_cost (seq 0 (length cl)) ∅ in
     let f2 := set_cells f (shifted_cells directions cl) in
     let* synth := generate_synth_images f2 in
     let* new_cost := calculate_cost f2 synth in
     OK (set_synth_image_stack f2 synth)).
Proof.
  unfold gradient_descent.
  destruct (calculate_cost f (synth_image_stack f)) as [orig_cost|e];
    [| reflexivity].
  cbn [bind]. destruct (cells f) as [cl|] eqn:Hc.
  - rewrite (cells_seq_Some _ _ Hc). cbn [bind].
    rewrite (gradient_loop_eq _ _ _ _ _ Hc).
    destruct (all_directions _ _ _ _ _) as [directions|e]; [| reflexivity].
    cbn [bind]. rewrite (apply_loop_eq _ _ _ Hc). reflexivity.
  - unfold cells_seq. rewrite Hc. reflexivity.
Qed.

Lemma gradient_descent_OK f f' :
  gradient_descent f = OK f' →
  ∃ orig_cost cl directions synth new_cost,
    calculate_cost f (synth_image_stack f) = OK orig_cost
    ∧ cells f = Some cl
    ∧ all_directions f cl orig_cost (seq 0 (length cl)) ∅ = OK directions
    ∧ generate_synth_images (set_cells f (shifted_cells directions cl)) = OK synth
    ∧ calculate_cost f synth = OK new_cost
    ∧ f' = set_synth_image_stack (set_cells f (shifted_cells directions cl)) synth.
Proof.
  rewrite gradient_descent_eq. intros Hgd.
  apply bind_OK in Hgd as (orig_cost & Hoc & Hgd).
  apply bind_OK in Hgd as (cl & Hcl & Hgd).
  apply bind_OK in Hgd as (directions & Hdirs & Hgd).
  apply bind_OK in Hgd as (synth & Hsyn & Hgd).
  apply bind_OK in Hgd as (new_cost & Hnc & Hgd).
  injection Hgd as <-.
  unfold cells_seq in Hcl. destruct (cells f) as [cl0|] eqn:Hc; [| discriminate].
  injection Hcl as ->.
  exists orig_cost, cl, directions, synth, new_cost. repeat split; auto.
Qed.

(** ** Gradient descent: what the estimates and the directions are *)

Lemma cell_gradients_spec f cl index c orig_cost params acc grads :
  cell_gradients f cl index c orig_cost params acc = OK grads →
  (NoDup acc.*1 → NoDup grads.*1)
  ∧ (∀ p, p ∈ grads.*1 ↔ p ∈ acc.*1 ∨ (p ∈ params.*1 ∧ p ≠ "name"%string))
  ∧ ((∀ p gr, dict_get p acc = Some gr →
        gradient_estimate f cl index c orig_cost p = OK gr) →
     ∀ p gr, dict_get p grads = Some gr →
        gradient_estimate f cl index c orig_cost p = OK gr).
Proof.
  revert acc. induction params as [|[param val] rest IH]; intros acc Hrun.
  - injection Hrun as <-. split; [auto|]. split; [| auto].
    intros p. split; [auto|]. intros [Hp|[Hp _]]; [exact Hp|].
    apply elem_of_nil in Hp as [].
  - cbn [cell_gradients] in Hrun.
    destruct (String.eqb_spec param "name") as [->|Hne].
    + destruct (IH _ Hrun) as (Hnd & Hkeys & Hval).
      split; [exact Hnd|]. split; [| exact Hval].
      intros p. rewrite Hkeys. cbn. rewrite elem_of_cons. 
      split; (intros [Hp|[Hp Hn]]; [left; exact Hp | right]).
      * split; [right; exact Hp | exact Hn].
      * split; [| exact Hn]. destruct Hp as [->|Hp]; [congruence | exact Hp].
    + apply bind_OK in Hrun as (gr0 & Hest & Hrun).
      destruct (IH _ Hrun) as (Hnd & Hkeys & Hval).
      split; [| split].
      * intros Hacc. apply Hnd, dict_set_NoDup, Hacc.
      * intros p. rewrite Hkeys, dict_set_keys. cbn. rewrite elem_of_cons.
        destruct (decide (param ∈ acc.*1)) as [Hin|Hin].
        -- split; (intros [Hp|[Hp Hn]]; [left; exact Hp | ]).
           ++ right. split; [right; exact Hp | exact Hn].
           ++ destruct Hp as [->|Hp]; [left; exact Hin | right; auto].
        -- rewrite elem_of_app, list_elem_of_singleton.
           split.
           ++ intros [[Hp| ->]|[Hp Hn]]; [left; exact Hp | right; auto | right; auto].
           ++ intros [Hp|[[->|Hp] Hn]]; [left; left; exact Hp | left; right; reflexivity | right; auto].
      * intros Hacc. apply Hval. intros p gr. rewrite dict_get_set.
        destruct (decide (param = p)) as [<-|_]; [| apply Hacc].
        intros [= <-]. exact Hest.
Qed.

Lemma direction_loop_at index grads (directions : gmap nat (dict R)) j :
  directions_at (direction_loop index grads directions) j
  = if decide (index = j)
    then foldl (λ d '(param, gradient), dict_set param (-1 * alpha * gradient) d)
               (directions_at directions index) grads
    else directions_at directions j.
Proof.
  unfold direction_loop. revert directions.
  induction grads as [|[param gradient] grads IH]; intros directions.
  - cbn. destruct (decide (index = j)) as [->|_]; reflexivity.
  - cbn [foldl]. rewrite IH. cbn beta iota.
    destruct (decide (index = j)) as [->|Hne].
    + f_equal. unfold directions_at.
      rewrite lookup_insert_eq. reflexivity.
    + unfold directions_at.
      rewrite lookup_insert_ne by exact Hne. reflexivity.
Qed.

(** The directions stored for one cell are its estimates times minus the
    learning rate. *)
Lemma direction_loop_fresh index grads (directions : gmap nat (dict R)) j :
  NoDup grads.*1 → directions_at directions index = [] →
  directions_at (direction_loop index grads directions) j
  = if decide (index = j) then descent_direction grads
    else directions_at directions j.
Proof.
  intros Hnd Hempty. rewrite direction_loop_at.
  destruct (decide (index = j)); [| reflexivity].
  rewrite Hempty. apply (dict_refill (λ gradient, -1 * alpha * gradient) grads []).
  exact Hnd.
Qed.

Lemma all_directions_spec f cl orig_cost idxs (directions directions' : gmap nat (dict R)) :
  NoDup idxs →
  all_directions f cl orig_cost idxs directions = OK directions' →
  (∀ j, j ∉ idxs → directions_at directions' j = directions_at directions j)
  ∧ (∀ j, j ∈ idxs → directions_at directions j = [] →
       ∃ c grads,
         cl !! j = Some c
         ∧ cell_gradients f cl j c orig_cost (get_cell_params c) [] = OK grads
         ∧ directions_at directions' j = descent_direction grads).
Proof.
  intros Hnd. revert directions.
  induction idxs as [|index rest IH]; intros directions Hrun.
  - injection Hrun as <-. split; [reflexivity|].
    intros j Hj. apply elem_of_nil in Hj as [].
  - cbn [all_directions] in Hrun.
    apply bind_OK in Hrun as (c & Hget & Hrun).
    apply bind_OK in Hrun as (grads & Hgrads & Hrun).
    apply getitem_OK in Hget. apply NoDup_cons in Hnd as [Hfresh Hnd].
    destruct (IH Hnd _ Hrun) as [Hout Hin].
    assert (Hkeys : NoDup grads.*1).
    { apply (cell_gradients_spec _ _ _ _ _ _ _ _ Hgrads). constructor. }
    split.
    + intros j Hj. apply not_elem_of_cons in Hj as [Hne Hj].
      rewrite (Hout _ Hj), direction_loop_at.
      rewrite decide_False by congruence. reflexivity.
    + intros j Hj Hempty. apply elem_of_cons in Hj as [->|Hj].
      * exists c, grads. split; [exact Hget|]. split; [exact Hgrads|].
        rewrite (Hout _ Hfresh), (direction_loop_fresh _ _ _ _ Hkeys Hempty).
        rewrite decide_True by reflexivity. reflexivity.
      * apply (Hin _ Hj). rewrite direction_loop_at.
        rewrite decide_False by (intros ->; contradiction). exact Hempty.
Qed.

(** ** Gradient descent: the pass returns *)

Lemma shape_stacked_fmap {A : Type} sh (u v : A → ndarray) (zs : list A) :
  shape (stacked sh (u <$> zs)) = shape (stacked sh (v <$> zs)).
Proof.
  destruct zs as [|z zs]; [reflexivity|].
  rewrite !fmap_cons. cbn [stacked shape length]. rewrite !length_fmap. reflexivity.
Qed.

(** Whether the cost can be computed depends on the shape alone. *)
Lemma calculate_cost_shape f s s' x :
  shape s = shape s' → calculate_cost f s = OK x → ∃ y, calculate_cost f s' = OK y.
Proof.
  unfold calculate_cost, np_sub. intros <-.
  destruct (broadcast_shapes _ _); [eauto | discriminate].
Qed.

Lemma cost_with_returns f cl orig_cost index c' :
  cells f = Some cl → cache_consistent f →
  calculate_cost f (synth_image_stack f) = OK orig_cost →
  ∃ new_cost, cost_with f cl index c' = OK new_cost.
Proof.
  intros Hc Hcons Horig. unfold cost_with.
  rewrite (generate_synth_images_Some _ (<[index:=c']> cl)) by reflexivity.
  cbn [bind]. refine (calculate_cost_shape f _ _ _ _ Horig).
  unfold cache_consistent in Hcons.
  rewrite (generate_synth_images_Some _ _ Hc) in Hcons.
  injection Hcons as <-. apply shape_stacked_fmap.
Qed.

Lemma cell_gradients_returns f cl orig_cost index c params acc :
  cells f = Some cl → cache_consistent f →
  calculate_cost f (synth_image_stack f) = OK orig_cost →
  ∃ grads, cell_gradients f cl index c orig_cost params acc = OK grads.
Proof.
  intros Hc Hcons Horig. revert acc.
  induction params as [|[param val] rest IH]; intros acc; [cbn; eauto|].
  cbn [cell_gradients]. destruct (String.eqb param "name"); [apply IH|].
  unfold gradient_estimate.
  destruct (cost_with_returns f cl orig_cost index
              (get_paramaterized_cell c [(param, moving_delta)]) Hc Hcons Horig)
    as [new_cost ->].
  cbn [bind]. apply IH.
Qed.

Lemma all_directions_returns f cl orig_cost idxs (directions : gmap nat (dict R)) :
  cells f = Some cl → cache_consistent f →
  calculate_cost f (synth_image_stack f) = OK orig_cost →
  Forall (λ index, index < length cl)%nat idxs →
  ∃ directions', all_directions f cl orig_cost idxs directions = OK directions'.
Proof.
  intros Hc Hcons Horig Hidx. revert directions.
  induction Hidx as [|index rest Hlt _ IH]; intros directions; [cbn; eauto|].
  cbn [all_directions].
  destruct (lookup_lt_is_Some_2 cl index Hlt) as [c Hget].
  apply getitem_OK in Hget as ->. cbn [bind].
  destruct (cell_gradients_returns f cl orig_cost index c (get_cell_params c) []
              Hc Hcons Horig) as [grads ->].
  cbn [bind]. apply IH.
Qed.

Lemma gradient_descent_returns f cl orig_cost :
  cells f = Some cl → cache_consistent f →
  calculate_cost f (synth_image_stack f) = OK orig_cost →
  ∃ f', gradient_descent f = OK f'.
Proof.
  intros Hc Hcons Horig. rewrite gradient_descent_eq, Horig. cbn [bind].
  rewrite (cells_seq_Some _ _ Hc). cbn [bind].
  destruct (all_directions_returns f cl orig_cost (seq 0 (length cl)) ∅
              Hc Hcons Horig) as [directions ->].
  { apply Forall_forall. intros i Hi. apply elem_of_seq in Hi. lia. }
  cbn [bind].
  rewrite (generate_synth_images_Some _ (shifted_cells directions cl))
    by reflexivity.
  cbn [bind].
  match goal with
  | |- ∃ _, bind (calculate_cost ?f2 ?s) _ = _ =>
      destruct (calculate_cost_shape f (synth_image_stack f) s orig_cost)
        as [new_cost Hnew]
  end.
  - unfold cache_consistent in Hcons.
    rewrite (generate_synth_images_Some _ _ Hc) in Hcons.
    injection Hcons as <-. apply shape_stacked_fmap.
  - exact Horig.
  - unfold calculate_cost in *. cbn [real_image_stack set_cells] in *.
    rewrite Hnew. cbn [bind]. eauto.
Qed.

(** A trial can be started on a frame with at least one cell whose cache is
    up to date and whose cost can be computed. *)
Lemma perturb_returns f g cl old_cost :
  cells f = Some cl → cl ≠ [] → cache_consistent f →
  calculate_cost f (synth_image_stack f) = OK old_cost →
  ∃ d cb f1 g', perturb f g = OK (d, cb, f1, g').
Proof.
  intros Hc Hne Hcons Hcost. unfold perturb.
  rewrite (cells_seq_Some _ _ Hc). cbn [bind]. unfold randint.
  assert (Hlen : (0 < length cl)%nat) by (destruct cl; [congruence | cbn; lia]).
  destruct (Z.ltb_spec (Z.of_nat (length cl) - 1) 0) as [Hneg|_]; [lia|].
  destruct (next_raw g) as [r g1]. cbn [bind].
  set (k := (0 + r `mod` (Z.of_nat (length cl) - 1 - 0 + 1))%Z).
  assert (Hk : (Z.to_nat k < length cl)%nat).
  { subst k. pose proof (Z.mod_pos_bound r (Z.of_nat (length cl) - 1 - 0 + 1)). lia. }
  destruct (lookup_lt_is_Some_2 cl _ Hk) as [old_cell Hold].
  apply getitem_OK in Hold as ->. cbn [bind].
  destruct (get_perturbed_cell old_cell g1) as [new_cell g2].
  rewrite (setitem_in_range _ _ _ Hk). cbn [bind].
  rewrite (generate_synth_images_Some _ (<[Z.to_nat k:=new_cell]> cl))
    by reflexivity.
  cbn [bind].
  match goal with
  | |- context [calculate_cost _ ?s] =>
      destruct (calculate_cost_shape f (synth_image_stack f) s old_cost)
        as [new_cost Hnew]
  end.
  - unfold cache_consistent in Hcons.
    rewrite (generate_synth_images_Some _ _ Hc) in Hcons.
    injection Hcons as <-. apply shape_stacked_fmap.
  - exact Hcost.
  - unfold calculate_cost in *. cbn [real_image_stack set_cells synth_image_stack] in *.
    rewrite Hnew, Hcost. cbn [bind]. eauto.
Qed.

(** C3. In a pass that returns, the baseline cost is computed once, from the
    cached stack, and the loop of the pass over the cells, run from the first
    position to the last, returns the frame unchanged with the directions
    the pass then commits. In that loop, at the turn of every cell [c], the
    loop over the parameters runs on the unchanged frame and gives it back
    unchanged; the directions kept for the cell are made from its estimates;
    there is an estimate for exactly the parameters other than the name; for
    each of them the probe replaces the cell by its variant shifted by
    [moving_delta] on that parameter alone, renders the whole stack, takes
    its cost, stores [(new_cost - orig_cost) / delta] and puts the snapshot
    of the cell back. [delta] is not [moving_delta]. *)
Theorem finite_difference_probes f f' :
  gradient_descent f = OK f' →
  ∃ orig_cost cl (directions : gmap nat (dict R)),
    calculate_cost f (synth_image_stack f) = OK orig_cost
    ∧ cells f = Some cl
    ∧ delta ≠ moving_delta
    ∧ gradient_loop f orig_cost (seq 0 (length cl)) ∅ = OK (f, directions)
    ∧ cells f' = Some (shifted_cells directions cl)
    ∧ ∀ index c, cl !! index = Some c →
        ∃ grads,
          param_loop f index c orig_cost (get_cell_params c) [] = OK (f, grads)
          ∧ directions_at directions index = descent_direction grads
          ∧ (∀ p, tunable c p ↔ p ∈ grads.*1)
          ∧ (∀ p, tunable c p →
               ∃ new_cost,
                 cost_with f cl index
                   (get_paramaterized_cell c [(p, moving_delta)]) = OK new_cost
                 ∧ probe f index c orig_cost p
                   = OK (f, (new_cost - orig_cost) / delta)
                 ∧ dict_get p grads = Some ((new_cost - orig_cost) / delta)).
Proof.
  intros Hgd.
  apply gradient_descent_OK in Hgd
    as (orig_cost & cl & directions & synth & new_cost
        & Horig & Hc & Hdirs & _ & _ & ->).
  exists orig_cost, cl, directions. split; [exact Horig|]. split; [exact Hc|].
  split; [unfold delta, moving_delta; lra|].
  split; [rewrite (gradient_loop_eq _ _ _ _ _ Hc), Hdirs; reflexivity|].
  split; [reflexivity|].
  intros index c Hget.
  destruct (all_directions_spec _ _ _ _ _ _ (NoDup_seq 0 (length cl)) Hdirs)
    as [_ Hin].
  destruct (Hin index) as (c' & grads & Hget' & Hgrads & Hat).
  { apply elem_of_seq. apply lookup_lt_Some in Hget. lia. }
  { reflexivity. }
  rewrite Hget in Hget'. injection Hget' as <-.
  destruct (cell_gradients_spec _ _ _ _ _ _ _ _ Hgrads) as (_ & Hkeys & Hval).
  exists grads. split; [| split; [exact Hat | split]].
  - rewrite (param_loop_eq _ _ _ _ _ _ _ Hc Hget), Hgrads. reflexivity.
  - intros p. rewrite Hkeys. unfold tunable. split.
    + intros Ht. right. exact Ht.
    + intros [Hp|Ht]; [apply elem_of_nil in Hp as [] | exact Ht].
  - intros p Ht.
    assert (Hp : p ∈ grads.*1) by (apply Hkeys; right; exact Ht).
    apply dict_get_key in Hp as [gr Hgr].
    assert (Hest : gradient_estimate f cl index c orig_cost p = OK gr).
    { apply Hval; [discriminate | exact Hgr]. }
    rewrite (probe_eq _ _ _ _ _ _ Hc Hget), Hest.
    unfold gradient_estimate in Hest.
    apply bind_OK in Hest as (nc & Hnc & [= <-]).
    exists nc. auto.
Qed.

(** C4. Take a frame with a list of cells whose baseline cost can be
    computed. If its cache is up to date the pass returns. Whenever the pass
    returns: the loop that computes the gradients has given the frame back
    untouched, together with the accumulated directions, which are, for every
    cell, minus the learning rate times each of its estimates; the cells
    committed by the pass are the old ones, each shifted once by its whole
    direction vector; the cached stack is their rendering. Nothing in this
    depends on how the costs compare. *)
Theorem descent_step_committed f cl orig_cost :
  cells f = Some cl →
  calculate_cost f (synth_image_stack f) = OK orig_cost →
  (cache_consistent f → ∃ f', gradient_descent f = OK f')
  ∧ ∀ f', gradient_descent f = OK f' →
      ∃ directions : gmap nat (dict R),
        gradient_loop f orig_cost (seq 0 (length cl)) ∅ = OK (f, directions)
        ∧ (∀ index c, cl !! index = Some c →
             ∃ grads,
               param_loop f index c orig_cost (get_cell_params c) []
                 = OK (f, grads)
               ∧ directions_at directions index = descent_direction grads)
        ∧ cells f' = Some (shifted_cells directions cl)
        ∧ generate_synth_images f' = OK (synth_image_stack f')
        ∧ real_image_stack f' = real_image_stack f
        ∧ z_slices f' = z_slices f.
Proof.
  intros Hc Horig. split.
  { intros Hcons. exact (gradient_descent_returns f cl orig_cost Hc Hcons Horig). }
  intros f' Hgd.
  destruct (gradient_descent_OK _ _ Hgd)
    as (orig' & cl' & directions & synth & new_cost
        & Horig' & Hc' & Hdirs & Hsyn & _ & ->).
  rewrite Horig in Horig'. injection Horig' as <-.
  rewrite Hc in Hc'. injection Hc' as <-.
  exists directions. split; [| split].
  - rewrite (gradient_loop_eq _ _ _ _ _ Hc), Hdirs. reflexivity.
  - intros index c Hget.
    destruct (all_directions_spec _ _ _ _ _ _ (NoDup_seq 0 (length cl)) Hdirs)
      as [_ Hin].
    destruct (Hin index) as (c' & grads & Hget' & Hgrads & Hat).
    { apply elem_of_seq. apply lookup_lt_Some in Hget. lia. }
    { reflexivity. }
    rewrite Hget in Hget'. injection Hget' as <-.
    exists grads. split; [| exact Hat].
    rewrite (param_loop_eq _ _ _ _ _ _ _ Hc Hget), Hgrads. reflexivity.
  - repeat split. exact Hsyn.
Qed.

(** C2. After construction, and then after any number of perturbation trials
    finalised by their closure (whatever the decision) and of
    gradient-descent passes, one after the other, the cached synthetic
    stack is the rendering of the frame's cells. *)
Theorem cache_stays_consistent real cfg cs out name (f0 f : Frame Cell) :
  init real cfg cs out name = OK f0 →
  rtc op_step f0 f →
  cache_consistent f.
Proof.
  intros Hinit Hsteps. apply init_consistent in Hinit.
  induction Hsteps as [f|f fm fe Hstep _ IH]; [exact Hinit|].
  apply IH. clear IH. destruct Hstep as [f g d cb f1 g' accept f2 Hp Hcb|f f' Hgd].
  - destruct (perturb_callback _ _ _ _ _ _ Hp) as [Htrue (ns & Hgen & Hfalse)].
    destruct accept.
    + rewrite Htrue in Hcb. injection Hcb as <-. exact Hinit.
    + rewrite Hfalse in Hcb. injection Hcb as <-. exact Hgen.
  - apply gradient_descent_OK in Hgd
      as (orig_cost & cl & directions & synth & new_cost & _ & _ & _ & Hsyn & _ & ->).
    exact Hsyn.
Qed.

End FrameFacts.

(** * The engine at work on a concrete cell *)

Section Runs.
Import Toy.

Lemma init_frame0 : init (pixel 0) cfg1 (Some [dot0]) "out" "img" = OK frame0.
Proof. reflexivity. Qed.

(** C1. A trial on [frame0] replaces the dot by its perturbed variant. The
    closure called with [true] gives back the frame of before the trial: the
    old dot and the old cache. Called with [false] it keeps the perturbed dot
    and stores the stack rendered during the trial, which is not the old
    cache. *)
Theorem perturb_finalize_on_dot :
  ∃ d cb f1 g',
    perturb frame0 [] = OK (d, cb, f1, g')
    ∧ cells f1 = Some [mkDot "a" (0 + 1)]
    ∧ synth_image_stack f1 = synth_image_stack frame0
    ∧ cb true f1 = OK frame0
    ∧ cb false f1 = OK (set_synth_image_stack f1 (pixel (0 + (0 + 1))))
    ∧ pixel (0 + (0 + 1)) ≠ synth_image_stack frame0.
Proof.
  eexists _, _, _, _. split; [reflexivity|].
  split; [reflexivity|]. split; [reflexivity|]. split; [reflexivity|].
  split; [reflexivity|].
  unfold frame0, dot_frame, pixel. cbn [synth_image_stack]. intros [= Hpix]. lra.
Qed.


(** C5 on machine numbers: with seven slices and the scale factor nearest
    to 0.1, the last two coordinates are 0.2 and 0.30000000000000004, and
    their difference is not the scale factor. *)
Example z_spacing_binary64 :
  let zs := Binary64.init_z_slices Binary64.tenth 7 in
  PrimFloat.eqb (PrimFloat.sub (nth 6 zs PrimFloat.zero) (nth 5 zs PrimFloat.zero))
                Binary64.tenth
  = false.
Proof. vm_compute. reflexivity. Qed.

(** C6, the claim as written fails: with an empty list of cells the
    constructor returns a frame, and the renderer returns a stack. *)
Lemma empty_cell_list_accepted :
  (∃ f : Frame Dot, init (pixel 0) cfg1 (Some []) "out" "img" = OK f)
  ∧ (∃ s, generate_synth_images frame_empty = OK s).
Proof. split; eexists; reflexivity. Qed.

(** C9, the claim as written fails: a one-slice real stack with two z
    coordinates gives a two-slice synthetic stack. *)
Lemma synth_stack_shape_differs :
  ∃ (f : Frame Dot) s,
    init (pixel 0) cfg2 (Some [dot0]) "out" "img" = OK f
    ∧ generate_synth_images f = OK s
    ∧ shape s ≠ shape (real_image_stack f).
Proof.
  eexists _, _. split; [reflexivity|]. split; [reflexivity|]. discriminate.
Qed.

(** The cost and the pass on a one-pixel frame, in closed form. *)

Lemma l2_distance_pixel u v : l2_distance (pixel u) (pixel v) = Rabs (u - v).
Proof.
  unfold l2_distance. change (indices (shape (pixel u))) with [[0; 0; 0]%nat].
  cbn [fmap list_fmap sum_sq foldr].
  change (item (pixel u) [0; 0; 0]%nat) with u.
  change (item (pixel v) [0; 0; 0]%nat) with v.
  rewrite Rplus_0_r. apply sqrt_Rsqr_abs.
Qed.

Lemma dot_frame_cost c s v :
  calculate_cost (dot_frame c s) (pixel v) = OK (Rabs (0 - v)).
Proof.
  rewrite calculate_cost_same_shape by reflexivity.
  f_equal. apply l2_distance_pixel.
Qed.

Lemma dot_frame_cost_with c s c' :
  cost_with (dot_frame c s) [c] 0 c' = OK (Rabs (0 - (0 + level c'))).
Proof.
  unfold cost_with.
  change (generate_synth_images (set_cells (dot_frame c s) (<[0%nat:=c']> [c])))
    with (OK (A:=ndarray) (pixel (0 + level c'))).
  cbn [bind]. apply (dot_frame_cost c' s).
Qed.

Lemma dot_frame_descent c s :
  gradient_descent (dot_frame c s)
  = OK (let step := -1 * alpha * ((Rabs (0 - (0 + (level c + moving_delta)))
                                   - Rabs (0 - s)) / delta) in
        dot_frame (mkDot (name c) (level c + step)) (0 + (level c + step))).
Proof.
  rewrite gradient_descent_eq.
  change (synth_image_stack (dot_frame c s)) with (pixel s).
  rewrite dot_frame_cost. cbn [bind].
  change (cells_seq (dot_frame c s)) with (OK [c]). cbn [bind].
  cbn [length seq all_directions].
  change (getitem [c] 0) with (OK c). cbn [bind].
  change (get_cell_params c) with (dot_params c).
  unfold dot_params. cbn [cell_gradients].
  change ("name" =? "name")%string with true.
  change ("level" =? "name")%string with false. cbn iota.
  unfold gradient_estimate. rewrite dot_frame_cost_with. cbn [bind].
  reflexivity.
Qed.

(** A pass that makes things worse is committed all the same: [frame0]
    matches its real pixel exactly, at cost 0; after one pass the cost is
    100. *)
Example descent_step_can_raise_cost :
  ∃ f',
    gradient_descent frame0 = OK f'
    ∧ calculate_cost frame0 (synth_image_stack frame0) = OK 0
    ∧ calculate_cost f' (synth_image_stack f') = OK 100.
Proof.
  unfold frame0. eexists. split; [apply dot_frame_descent|].
  cbn zeta. cbn [synth_image_stack dot_frame].
  rewrite !dot_frame_cost. cbn [level dot0].
  unfold alpha, delta, moving_delta.
  assert (H1 : Rabs (0 - (0 + (0 + 1))) = 1) by (rewrite Rabs_left by lra; lra).
  assert (H0 : Rabs (0 - (0 + 0)) = 0) by (rewrite Rabs_right by lra; lra).
  rewrite H1, H0.
  assert (H100 : Rabs (0 - (0 + (0 + -1 * (1 / 10) * ((1 - 0) / (1 / 1000))))) = 100)
    by (rewrite Rabs_right by lra; lra).
  rewrite H100. split; reflexivity.
Qed.

(** C2 at work: a trial finalised with [false], then a pass. *)
Lemma cache_stays_consistent_run :
  ∃ f : Frame Dot, rtc op_step frame0 f ∧ cache_consistent f.
Proof.
  assert (Hsteps : ∃ f : Frame Dot, rtc op_step frame0 f).
  { eexists. eapply rtc_l.
    - eapply (step_trial frame0 [] _ _ _ _ false); reflexivity.
    - eapply rtc_l; [eapply step_pass; reflexivity | apply rtc_refl]. }
  destruct Hsteps as [f Hsteps]. exists f. split; [exact Hsteps|].
  exact (cache_stays_consistent _ _ _ _ _ _ _ init_frame0 Hsteps).
Defined.

(** C3 at work: the pass on [frame0] probes the level of the dot. *)
Lemma finite_difference_probes_run :
  ∃ f' orig_cost grads (directions : gmap nat (dict R)),
    gradient_descent frame0 = OK f'
    ∧ gradient_loop frame0 orig_cost [0%nat] ∅ = OK (frame0, directions)
    ∧ cells f' = Some (shifted_cells directions [dot0])
    ∧ param_loop frame0 0 dot0 orig_cost (dot_params dot0) [] = OK (frame0, grads)
    ∧ directions_at directions 0 = descent_direction grads
    ∧ "level"%string ∈ grads.*1.
Proof.
  assert (Hgd : ∃ f', gradient_descent frame0 = OK f') by (eexists; reflexivity).
  destruct Hgd as [f' Hgd].
  destruct (finite_difference_probes frame0 f' Hgd)
    as (orig_cost & cl & directions & _ & Hc & _ & Hloop & Hcommit & Hcells).
  assert (Hcl : cl = [dot0]) by (injection Hc as <-; reflexivity).
  subst cl.
  destruct (Hcells 0%nat dot0 eq_refl) as (grads & Hparam & Hat & Hkeys & _).
  exists f', orig_cost, grads, directions.
  split; [exact Hgd|]. split; [exact Hloop|]. split; [exact Hcommit|].
  split; [exact Hparam|]. split; [exact Hat|].
  apply Hkeys. split; [| discriminate].
  cbn. right. left.
Defined.

(** C4 at work: the pass on [frame0] returns and commits. *)
Lemma descent_step_committed_run :
  ∃ f', gradient_descent frame0 = OK f'
        ∧ generate_synth_images f' = OK (synth_image_stack f').
Proof.
  assert (Hcons : cache_consistent frame0) by reflexivity.
  assert (Hcost : ∃ c, calculate_cost frame0 (synth_image_stack frame0) = OK c)
    by (eexists; reflexivity).
  destruct Hcost as [c Hcost].
  destruct (descent_step_committed frame0 [dot0] c eq_refl Hcost)
    as [Hreturns Hcommitted].
  destruct (Hreturns Hcons) as [f' Hgd].
  destruct (Hcommitted f' Hgd) as (directions & _ & _ & _ & Hsyn & _).
  exists f'. split; assumption.
Defined.


(** C7 at work: a pixel of value 1 padded by one pixel of background. *)
Lemma padded_real_stack_run :
  ∃ f : Frame Dot,
    init (pixel 1) cfg_pad (Some [dot0]) "out" "img" = OK f
    ∧ shape (real_image_stack f) = [1; 3; 3]%nat
    ∧ item (real_image_stack f) [0; 0; 2]%nat = 0
    ∧ item (real_image_stack f) [0; 1; 1]%nat = 1.
Proof.
  assert (Hinit : ∃ f : Frame Dot,
            init (pixel 1) cfg_pad (Some [dot0]) "out" "img" = OK f)
    by (eexists; reflexivity).
  destruct Hinit as [f Hinit]. exists f. split; [exact Hinit|].
  destruct (padded_real_stack _ _ _ _ _ _ Hinit)
    as (d & h & w & Hsh & _ & Hshape & Hborder & Hinner).
  injection Hsh as <- <- <-. split; [exact Hshape|]. split.
  - apply Hborder; cbn; lia.
  - apply (Hinner 0%nat 0%nat 0%nat); lia.
Defined.

(** C8 at work: the cost of the real stack of [frame0] against itself. *)
Lemma calculate_cost_euclidean_run :
  calculate_cost frame0 (real_image_stack frame0) = OK 0.
Proof. apply (calculate_cost_euclidean frame0 frame0 eq_refl). Defined.

(** C9 at work: one slice of one pixel. *)
Lemma synth_stack_shape_run :
  ∃ s, generate_synth_images frame0 = OK s ∧ shape s = [1; 1; 1]%nat.
Proof.
  assert (Hz : z_slices frame0 ≠ []) by discriminate.
  destruct (synth_stack_shape frame0 [dot0] 1%nat [1; 1]%nat eq_refl Hz eq_refl)
    as (s & Hgen & Hshape & _).
  exists s. split; assumption.
Defined.

(** C10 at work: a frame without cells renders to one slice of one
    background pixel. *)
Lemma render_empty_cell_list_run :
  ∃ s, generate_synth_images frame_empty = OK s
       ∧ shape s = [1; 1; 1]%nat
       ∧ data s = [0]
       ∧ well_formed s.
Proof.
  assert (Hz : z_slices frame_empty ≠ []) by discriminate.
  destruct (render_empty_cell_list frame_empty eq_refl)
    as [(s & Hgen & _ & Hshape & Hwf & Hdata & _) _].
  exists s. split; [exact Hgen|]. split; [exact (Hshape Hz)|].
  split; [exact Hdata | exact Hwf].
Defined.

End Runs.

(** * Further properties of the engine *)

(** ** The z coordinates, again *)

(** X2. With at least one slice the coordinate at position [n // 2] is 0
    and the first one is [- z_scaling * (n // 2)]. *)
Theorem z_slices_centre_and_first cfg :
  (0 < Config.z_slices cfg)%Z →
  init_z_slices cfg !! Z.to_nat (Config.z_slices cfg / 2) = Some 0
  ∧ init_z_slices cfg !! 0%nat
    = Some (- Config.z_scaling cfg * IZR (Config.z_slices cfg / 2)).
Proof.
  intros Hn. set (n := Config.z_slices cfg) in *.
  assert (Hhalf : (0 <= n / 2 < n)%Z).
  { split; [apply Z.div_pos; lia | apply Z.div_lt_upper_bound; lia]. }
  split.
  - rewrite init_z_slices_lookup by (fold n; lia). fold n. f_equal.
    rewrite Z2Nat.id, Z.sub_diag by lia. simpl. lra.
  - rewrite init_z_slices_lookup by (fold n; lia). fold n. f_equal.
    change (Z.of_nat 0) with 0%Z. rewrite Z.sub_0_l, opp_IZR. lra.
Qed.

(** ** Arrays, again *)

Lemma tabulate_ext sh (u v : list nat → R) :
  (∀ idx, Forall2 lt idx sh → u idx = v idx) → tabulate sh u = tabulate sh v.
Proof.
  intros Huv. unfold tabulate. f_equal. apply list_fmap_ext.
  intros i idx Hidx. apply Huv, indices_valid.
  eapply list_elem_of_lookup_2, Hidx.
Qed.

Section FrameFurther.
Context {Cell Rng U8 Image : Type}
  `{!CellApi Cell Rng} `{!RandomSource Rng}
  `{!OutlineApi Cell} `{!ImagingApi U8 Image}.
Implicit Types (f : Frame Cell) (cl : list Cell) (g : Rng).

(** ** Construction *)

(** X3. Construction fails in exactly three cases: the real stack is not
    three-dimensional, the padding is negative, or no cells are given; the
    error is always a [ValueError]. *)
Theorem init_raises_iff real cfg (cs : option (list Cell)) out name :
  (raises (init real cfg cs out name)
   ↔ (∀ d h w, shape real ≠ [d; h; w])
     ∨ (Config.padding cfg < 0)%Z
     ∨ cs = None)
  ∧ ∀ e, init real cfg cs out name = Err e → ∃ msg, e = ValueError msg.
Proof.
  unfold init, pad_real_image, np_pad, raises.
  destruct (shape real) as [|d [|h [|w [|x sh]]]] eqn:Hsh; cbn [bind].
  1-3, 5: split;
     [split; [intros _; left; intros d' h' w'; discriminate | eauto]
     | intros e [= <-]; eauto].
  destruct (Z.ltb_spec (Config.padding cfg) 0) as [Hneg|Hpos]; cbn [bind].
  - split; [split; [auto | eauto] | intros e [= <-]; eauto].
  - destruct cs as [cl|].
    + rewrite render_Some. cbn [bind]. split; [split|].
      * intros [e He]. discriminate.
      * intros [Hno|[Hneg|Hnone]]; [| lia | discriminate].
        exfalso. exact (Hno d h w eq_refl).
      * intros e He. discriminate.
    + cbn. split; [split; [auto | eauto] | intros e [= <-]; eauto].
Qed.

(** X4. With a padding of zero the stack kept by the frame is the stack it
    was given. *)
Theorem zero_padding_keeps_real_stack real cfg (cs : option (list Cell)) out name f :
  Config.padding cfg = 0%Z →
  well_formed real →
  init real cfg cs out name = OK f →
  real_image_stack f = real.
Proof.
  intros Hp Hwf Hf. apply init_OK in Hf as (padded & synth & Hpad & _ & ->).
  cbn [real_image_stack]. apply np_pad_OK in Hpad as (d & h & w & Hsh & _ & ->).
  rewrite Hp. change (Z.to_nat 0) with 0%nat.
  rewrite !Nat.mul_0_r, !Nat.add_0_r.
  transitivity (tabulate (shape real) (item real));
    [| apply tabulate_item, Hwf].
  rewrite Hsh. apply tabulate_ext. intros idx Hidx.
  destruct idx as [|k [|i [|j [|x idx]]]];
    try (apply Forall2_length in Hidx; discriminate).
  inversion Hidx as [|? ? ? ? Hk Hidx1]; subst.
  inversion Hidx1 as [|? ? ? ? Hi Hidx2]; subst.
  inversion Hidx2 as [|? ? ? ? Hj _]; subst.
  rewrite decide_True by lia. rewrite !Nat.sub_0_r. reflexivity.
Qed.

(** X5. A slice count of zero or less is accepted: the frame has no z
    coordinate and its cached stack is the empty one-dimensional array. As
    soon as the padded images are two pixels wide the cost of that cache
    cannot be computed, and a gradient-descent pass fails. *)
Theorem no_slices_frame real cfg cl out name d h w :
  (Config.z_slices cfg <= 0)%Z →
  shape real = [d; h; w] →
  (0 <= Config.padding cfg)%Z →
  ∃ f, init real cfg (Some cl) out name = OK f
       ∧ z_slices f = []
       ∧ synth_image_stack f = NDArray [0%nat] []
       ∧ (2 ≤ w + 2 * Z.to_nat (Config.padding cfg) →
          raises (calculate_cost f (synth_image_stack f))
          ∧ raises (gradient_descent f)).
Proof.
  intros Hn Hsh Hp.
  assert (Hzs : init_z_slices cfg = []).
  { apply length_zero_iff_nil. rewrite init_z_slices_length. lia. }
  unfold init, pad_real_image, np_pad. rewrite Hsh.
  destruct (Z.ltb_spec (Config.padding cfg) 0) as [Hneg|_]; [lia|].
  cbn [bind]. rewrite render_Some, Hzs. cbn [bind fmap list_fmap stacked].
  eexists. split; [reflexivity|]. cbn [z_slices synth_image_stack].
  split; [reflexivity|]. split; [reflexivity|]. intros Hw.
  set (w' := (w + 2 * Z.to_nat (Config.padding cfg))%nat) in *.
  assert (Hcost : ∀ f', shape (real_image_stack f')
                        = [d; (h + 2 * Z.to_nat (Config.padding cfg))%nat; w'] →
            calculate_cost f' (NDArray [0%nat] [])
            = Err (ValueError "operands could not be broadcast together")).
  { intros f' Hf'. unfold calculate_cost, np_sub. rewrite Hf'.
    cbn [shape]. unfold broadcast_shapes. cbn [reverse rev_append broadcast_rev].
    change (reverse [?a; ?b; ?c]) with [c; b; a].
    unfold reverse. cbn [rev_append broadcast_rev]. unfold bdim.
    rewrite decide_False by lia. rewrite decide_False by lia.
    rewrite decide_False by lia. reflexivity. }
  split.
  - eexists. apply Hcost. reflexivity.
  - eexists. unfold gradient_descent. cbn [synth_image_stack].
    rewrite Hcost by reflexivity. reflexivity.
Qed.

(** ** What a step changes and what it keeps *)

Lemma op_step_cases f f' :
  op_step f f' →
  f' = f
  ∨ (∃ cl' s, cells f ≠ None ∧ length <$> cells f = Some (length cl')
              ∧ generate_synth_images (set_cells f cl') = OK s
              ∧ f' = set_synth_image_stack (set_cells f cl') s).
Proof.
  intros [f0 g d cb f1 g' accept f2 Hp Hcb|f0 f2 Hgd].
  - destruct (perturb_callback _ _ _ _ _ _ Hp) as [Htrue (ns & Hgen & Hfalse)].
    destruct accept.
    + left. congruence.
    + right. rewrite Hfalse in Hcb. injection Hcb as <-.
      apply perturb_OK in Hp
        as (cl & index & old_cell & new_cell & g1 & new_synth & new_cost & old_cost
            & Hc & _ & _ & -> & Hgen' & _).
      exists (<[index:=new_cell]> cl), ns.
      rewrite Hc, length_insert. repeat split; [discriminate | exact Hgen].
  - right. apply gradient_descent_OK in Hgd
      as (orig_cost & cl & directions & synth & new_cost & _ & Hc & _ & Hsyn & _ & ->).
    exists (shifted_cells directions cl), synth.
    rewrite Hc. unfold shifted_cells. rewrite length_imap.
    repeat split; [discriminate | exact Hsyn].
Qed.

(** X6. Trials finalised by their closure and gradient-descent passes never
    touch the z coordinates, the configuration, the output path, the image
    name or either copy of the real stack, and they never change the number
    of cells: [len(frame)] stays what it was. *)
Theorem steps_keep_the_frame_fixed (f0 f : Frame Cell) :
  rtc op_step f0 f →
  z_slices f = z_slices f0
  ∧ simulation_config f = simulation_config f0
  ∧ output_path f = output_path f0
  ∧ image_name f = image_name f0
  ∧ _real_image_stack f = _real_image_stack f0
  ∧ real_image_stack f = real_image_stack f0
  ∧ __len__ f = __len__ f0.
Proof.
  induction 1 as [f|f fm fe Hstep _ IH]; [repeat split|].
  destruct IH as (Hz & Hcfg & Hout & Hname & Horig & Hreal & Hlen).
  rewrite Hz, Hcfg, Hout, Hname, Horig, Hreal, Hlen.
  apply op_step_cases in Hstep as [->|(cl' & s & Hsome & Hlen' & _ & ->)];
    [repeat split|].
  repeat split. unfold __len__, cells_seq. cbn [cells set_synth_image_stack set_cells].
  destruct (cells f) as [cl|]; [| congruence].
  cbn [bind]. injection Hlen' as Hlen'. congruence.
Qed.

(** X7. A gradient-descent pass that returns, and a trial whose closure is
    called with [false], leave a cache that is the rendering of the cells,
    whatever state the cache was in before. *)
Theorem committing_step_repairs_cache (f f' : Frame Cell) :
  gradient_descent f = OK f'
  ∨ (∃ g d cb f1 g', perturb f g = OK (d, cb, f1, g') ∧ cb false f1 = OK f') →
  cache_consistent f'.
Proof.
  intros [Hgd|(g & d & cb & f1 & g' & Hp & Hcb)].
  - apply gradient_descent_OK in Hgd
      as (orig_cost & cl & directions & synth & new_cost & _ & _ & _ & Hsyn & _ & ->).
    exact Hsyn.
  - destruct (perturb_callback _ _ _ _ _ _ Hp) as [_ (ns & Hgen & Hfalse)].
    rewrite Hfalse in Hcb. injection Hcb as <-. exact Hgen.
Qed.

Lemma op_step_consistent (f f' : Frame Cell) :
  cache_consistent f → op_step f f' → cache_consistent f'.
Proof.
  intros Hcons Hstep.
  apply op_step_cases in Hstep as [->|(cl' & s & _ & _ & Hgen & ->)];
    [exact Hcons | exact Hgen].
Qed.

Lemma steps_keep_real (f0 f : Frame Cell) :
  rtc op_step f0 f → real_image_stack f = real_image_stack f0.
Proof.
  induction 1 as [f|f fm fe Hstep _ IH]; [reflexivity|]. rewrite IH.
  apply op_step_cases in Hstep as [->|(cl' & s & _ & _ & _ & ->)]; reflexivity.
Qed.

(** X8. From construction on, through trials and passes, the padded real
    stack and the cached stack are well-formed arrays (as many elements as
    the shape says), and with at least one z coordinate the cache has one
    slice per coordinate, each of the per-slice shape of the real stack. *)
Theorem arrays_stay_well_formed real cfg (cs : option (list Cell)) out name (f0 f : Frame Cell) :
  init real cfg cs out name = OK f0 →
  rtc op_step f0 f →
  well_formed (real_image_stack f)
  ∧ well_formed (synth_image_stack f)
  ∧ (z_slices f ≠ [] →
     shape (synth_image_stack f) = length (z_slices f) :: get_image_shape f).
Proof.
  intros Hinit Hsteps.
  assert (Hcons : cache_consistent f).
  { apply init_consistent in Hinit. clear -Hinit Hsteps.
    induction Hsteps as [f|f fm fe Hstep _ IH]; [exact Hinit|].
    apply IH. eapply op_step_consistent; eassumption. }
  assert (Hreal : well_formed (real_image_stack f)).
  { rewrite (steps_keep_real _ _ Hsteps).
    apply init_OK in Hinit as (padded & synth & Hpad & _ & ->).
    apply np_pad_OK in Hpad as (d & h & w & _ & _ & ->).
    apply well_formed_tabulate. }
  split; [exact Hreal|].
  unfold cache_consistent in Hcons.
  destruct (cells f) as [cl|] eqn:Hc;
    [| rewrite (generate_synth_images_None _ Hc) in Hcons; discriminate].
  split.
  - eapply (render_well_formed (z_slices f) (simulation_config f) cl).
    unfold generate_synth_images in Hcons. rewrite Hc in Hcons. exact Hcons.
  - intros Hz. rewrite (generate_synth_images_Some _ _ Hc) in Hcons.
    injection Hcons as <-. destruct (z_slices f) as [|z zs]; [congruence|].
    rewrite fmap_cons. cbn [stacked shape length]. rewrite length_fmap. reflexivity.
Qed.

(** ** Perturbation trials, again *)

(** X9. Starting a trial replaces one cell, by its perturbed variant, and
    nothing else: every other cell, the number of cells and the cached stack
    are as before. *)
Theorem perturb_changes_one_cell f g d cb f1 g' :
  perturb f g = OK (d, cb, f1, g') →
  ∃ cl cl1 index old_cell g1,
    cells f = Some cl
    ∧ cells f1 = Some cl1
    ∧ cl !! index = Some old_cell
    ∧ cl1 !! index = Some (get_perturbed_cell old_cell g1).1
    ∧ (∀ j, j ≠ index → cl1 !! j = cl !! j)
    ∧ length cl1 = length cl
    ∧ synth_image_stack f1 = synth_image_stack f.
Proof.
  intros Hp. apply perturb_OK in Hp
    as (cl & index & old_cell & new_cell & g1 & new_synth & new_cost & old_cost
        & Hc & Hold & Hnew & -> & _).
  exists cl, (<[index:=new_cell]> cl), index, old_cell, g1.
  split; [exact Hc|]. split; [reflexivity|]. split; [exact Hold|].
  rewrite Hnew. split; [| split; [| split]].
  - apply list_lookup_insert_eq. eapply lookup_lt_Some, Hold.
  - intros j Hj. apply list_lookup_insert_ne. congruence.
  - apply length_insert.
  - reflexivity.
Qed.

(** X10. The number returned by [perturb] is the cost of the cache before
    the trial minus the cost of the cache the closure stores when called with
    [false]. *)
Theorem perturb_delta_is_cost_change f g d cb f1 g' f2 :
  perturb f g = OK (d, cb, f1, g') →
  cb false f1 = OK f2 →
  ∃ old_cost new_cost,
    calculate_cost f (synth_image_stack f) = OK old_cost
    ∧ calculate_cost f2 (synth_image_stack f2) = OK new_cost
    ∧ d = old_cost - new_cost.
Proof.
  intros Hp Hcb.
  destruct (perturb_callback _ _ _ _ _ _ Hp) as [_ (ns & Hgen & Hfalse)].
  rewrite Hfalse in Hcb. injection Hcb as <-.
  apply perturb_OK in Hp
    as (cl & index & old_cell & new_cell & g1 & new_synth & new_cost & old_cost
        & _ & _ & _ & -> & Hgen' & Hnc & Hoc & -> & _).
  rewrite Hgen' in Hgen. injection Hgen as <-.
  exists old_cost, new_cost. repeat split; assumption.
Qed.

(** X11. Calling the closure of a trial twice. Twice [true] gives the frame
    of before the trial; twice [false] is the same as once; one call of each,
    in either order, gives the old cells together with the stack rendered
    for the perturbed cells. *)
Theorem finalize_twice f g d cb f1 g' :
  perturb f g = OK (d, cb, f1, g') →
  ∃ new_synth,
    generate_synth_images f1 = OK new_synth
    ∧ (let* f2 := cb true f1 in cb true f2) = OK f
    ∧ (let* f2 := cb false f1 in cb false f2) = cb false f1
    ∧ (let* f2 := cb false f1 in cb true f2)
      = OK (set_synth_image_stack f new_synth)
    ∧ (let* f2 := cb true f1 in cb false f2)
      = OK (set_synth_image_stack f new_synth).
Proof.
  intros Hp.
  destruct (perturb_callback _ _ _ _ _ _ Hp) as [Htrue (ns & Hgen & Hfalse)].
  apply perturb_OK in Hp
    as (cl & index & old_cell & new_cell & g1 & new_synth & new_cost & old_cost
        & Hc & Hold & _ & -> & Hgen' & _ & _ & _ & ->).
  rewrite Hgen' in Hgen. injection Hgen as <-.
  assert (Hlt : (index < length cl)%nat) by (eapply lookup_lt_Some, Hold).
  exists new_synth. split; [exact Hgen'|].
  rewrite Htrue, Hfalse. cbn [bind]. split; [| split; [| split]].
  - unfold callback. rewrite (cells_seq_Some _ _ Hc). cbn [bind].
    rewrite (setitem_in_range _ _ _ Hlt). cbn [bind].
    rewrite (list_insert_id _ _ _ Hold). f_equal. apply set_cells_same, Hc.
  - reflexivity.
  - unfold callback. cbn [cells_seq cells set_synth_image_stack set_cells bind].
    rewrite setitem_in_range by (rewrite length_insert; exact Hlt).
    cbn [bind]. rewrite (insert_restore _ _ _ _ Hold). f_equal.
    destruct f. cbn in *. subst. reflexivity.
  - reflexivity.
Qed.

(** ** Frames without cells *)

(** X12. With [cells] set to [None]: [len], [perturb] and the export raise a
    [TypeError]; so does a gradient-descent pass once the baseline cost has
    been computed; the outline view raises it only when there is a slice to
    draw on and returns no image otherwise. *)
Theorem methods_without_cells f g :
  cells f = None →
  __len__ f = Err (TypeError "'NoneType' is not a sequence")
  ∧ perturb f g = Err (TypeError "'NoneType' is not a sequence")
  ∧ get_cells_as_params f = Err (TypeError "'NoneType' is not a sequence")
  ∧ (∀ orig_cost, calculate_cost f (synth_image_stack f) = OK orig_cost →
       gradient_descent f = Err (TypeError "'NoneType' is not a sequence"))
  ∧ (∀ real_images, np_iter (real_image_stack f) = OK real_images →
       generate_output_images (Image := Image) f
       = match zip real_images (z_slices f) with
         | [] => OK []
         | _ :: _ => Err (TypeError "'NoneType' is not a sequence")
         end).
Proof.
  intros Hc.
  assert (Hseq : cells_seq f = Err (TypeError "'NoneType' is not a sequence")).
  { unfold cells_seq. rewrite Hc. reflexivity. }
  split; [| split; [| split; [| split]]].
  - unfold __len__. rewrite Hseq. reflexivity.
  - unfold perturb. rewrite Hseq. reflexivity.
  - unfold get_cells_as_params. rewrite Hseq. reflexivity.
  - intros orig_cost Horig. unfold gradient_descent. rewrite Horig, Hseq. reflexivity.
  - intros real_images Hit. unfold generate_output_images. rewrite Hit. cbn [bind].
    destruct (zip real_images (z_slices f)) as [|[real_image z] rest]; [reflexivity|].
    cbn [output_loop]. rewrite Hseq. reflexivity.
Qed.

(** ** Gradient descent, again *)

Lemma set_synth_same f : set_synth_image_stack f (synth_image_stack f) = f.
Proof. destruct f. reflexivity. Qed.

(** X13. On a frame with an empty list of cells, an up-to-date cache and a
    cost that can be computed, a gradient-descent pass returns the frame as
    it was. *)
Theorem gradient_descent_without_cells f orig_cost :
  cells f = Some [] →
  cache_consistent f →
  calculate_cost f (synth_image_stack f) = OK orig_cost →
  gradient_descent f = OK f.
Proof.
  intros Hc Hcons Horig. rewrite gradient_descent_eq, Horig. cbn [bind].
  rewrite (cells_seq_Some _ _ Hc). cbn [bind length seq all_directions].
  change (shifted_cells ∅ []) with (@nil Cell).
  rewrite (set_cells_same _ _ Hc). unfold cache_consistent in Hcons.
  rewrite Hcons. cbn [bind]. rewrite Horig. cbn [bind].
  rewrite set_synth_same. reflexivity.
Qed.

Lemma dict_get_descent_direction p grads :
  dict_get p (descent_direction grads)
  = (λ gradient, -1 * alpha * gradient) <$> dict_get p grads.
Proof.
  induction grads as [|[k gr] grads IH]; [reflexivity|].
  cbn. destruct (String.eqb k p); [reflexivity | exact IH].
Qed.

(** The gradient loop of a pass, cell by cell. *)
Lemma gradient_loop_directions f cl orig_cost f' (directions : gmap nat (dict R)) index c :
  cells f = Some cl →
  gradient_loop f orig_cost (seq 0 (length cl)) ∅ = OK (f', directions) →
  cl !! index = Some c →
  ∃ grads,
    cell_gradients f cl index c orig_cost (get_cell_params c) [] = OK grads
    ∧ directions_at directions index = descent_direction grads.
Proof.
  intros Hc Hloop Hget. rewrite (gradient_loop_eq _ _ _ _ _ Hc) in Hloop.
  apply bind_OK in Hloop as (directions' & Hdirs & [= _ <-]).
  destruct (all_directions_spec _ _ _ _ _ _ (NoDup_seq 0 (length cl)) Hdirs)
    as [_ Hin].
  destruct (Hin index) as (c' & grads & Hget' & Hgrads & Hat).
  { apply elem_of_seq. apply lookup_lt_Some in Hget. lia. }
  { reflexivity. }
  rewrite Hget in Hget'. injection Hget' as <-. eauto.
Qed.

(** X14. The shift a pass applies to a tunable parameter of a cell is minus
    the learning rate times the estimate of its probe,
    [-1 * alpha * ((new_cost - orig_cost) / delta)]: negative when the probe
    raised the cost, positive when it lowered it. *)
Theorem descent_step_size f cl orig_cost f' (directions : gmap nat (dict R)) index c p :
  cells f = Some cl →
  gradient_loop f orig_cost (seq 0 (length cl)) ∅ = OK (f', directions) →
  cl !! index = Some c →
  tunable c p →
  ∃ new_cost step,
    cost_with f cl index (get_paramaterized_cell c [(p, moving_delta)]) = OK new_cost
    ∧ dict_get p (directions_at directions index) = Some step
    ∧ step = -1 * alpha * ((new_cost - orig_cost) / delta)
    ∧ (orig_cost < new_cost → step < 0)
    ∧ (new_cost < orig_cost → 0 < step).
Proof.
  intros Hc Hloop Hget Ht.
  destruct (gradient_loop_directions _ _ _ _ _ _ _ Hc Hloop Hget)
    as (grads & Hgrads & Hat).
  destruct (cell_gradients_spec _ _ _ _ _ _ _ _ Hgrads) as (_ & Hkeys & Hval).
  assert (Hp : p ∈ grads.*1) by (apply Hkeys; right; exact Ht).
  apply dict_get_key in Hp as [gr Hgr].
  assert (Hest : gradient_estimate f cl index c orig_cost p = OK gr).
  { apply Hval; [discriminate | exact Hgr]. }
  unfold gradient_estimate in Hest.
  apply bind_OK in Hest as (new_cost & Hnc & [= <-]).
  exists new_cost, (-1 * alpha * ((new_cost - orig_cost) / delta)).
  split; [exact Hnc|]. split.
  { rewrite Hat, dict_get_descent_direction, Hgr. reflexivity. }
  split; [reflexivity|].
  unfold alpha, delta. split; intros Hlt; lra.
Qed.

(** X15. With an up-to-date cache, a parameter whose probe renders the same
    stack as the one cached gets the gradient zero, and the frame comes back
    unchanged. *)
Theorem probe_of_insensitive_parameter f cl index c orig_cost p :
  cells f = Some cl →
  cl !! index = Some c →
  cache_consistent f →
  calculate_cost f (synth_image_stack f) = OK orig_cost →
  generate_synth_images
    (set_cells f (<[index:=get_paramaterized_cell c [(p, moving_delta)]]> cl))
  = generate_synth_images f →
  ∃ gradient, probe f index c orig_cost p = OK (f, gradient) ∧ gradient = 0.
Proof.
  intros Hc Hget Hcons Horig Hsame.
  rewrite (probe_eq _ _ _ _ _ _ Hc Hget).
  unfold gradient_estimate, cost_with. rewrite Hsame, Hcons. cbn [bind].
  change (calculate_cost (set_cells f ?l) ?s) with (calculate_cost f s).
  rewrite Horig. cbn [bind]. eexists. split; [reflexivity|].
  unfold delta. lra.
Qed.

(** ** The cost and the depth of the stacks *)

(** X18. A difference of depth is not always an error: for a real stack and
    a synthetic stack with the same height and width the cost can be computed
    exactly when the two depths are equal or one of them is 1. *)
Theorem calculate_cost_depth_mismatch f synth d1 d2 h w :
  shape (real_image_stack f) = [d1; h; w] →
  shape synth = [d2; h; w] →
  (∃ c, calculate_cost f synth = OK c) ↔ d1 = d2 ∨ d1 = 1%nat ∨ d2 = 1%nat.
Proof.
  intros Hr Hs. unfold calculate_cost, np_sub, broadcast_shapes.
  rewrite Hr, Hs. unfold reverse. cbn [rev_append broadcast_rev].
  rewrite !bdim_diag. unfold bdim.
  destruct (decide (d1 = d2)) as [Heq|Hne]; [cbn; split; eauto|].
  destruct (decide (d1 = 1%nat)) as [H1|Hn1]; [cbn; split; eauto|].
  destruct (decide (d2 = 1%nat)) as [H2|Hn2]; [cbn; split; eauto|].
  cbn. split; [intros [c Hc]; discriminate | intros [?|[?|?]]; contradiction].
Qed.

(** ** The views *)

Lemma np_iter_chunks sh (imgs : list ndarray) :
  Forall (λ b, shape b = sh ∧ well_formed b) imgs →
  (λ i, NDArray sh (take (size_of sh)
                      (drop (i * size_of sh) (concat (data <$> imgs)))))
    <$> seq 0 (length imgs)
  = imgs.
Proof.
  induction 1 as [|b imgs [Hsh Hwf] _ IH]; [reflexivity|].
  cbn [length seq fmap list_fmap concat]. unfold well_formed in Hwf.
  rewrite Hsh in Hwf. f_equal.
  - cbn [Nat.mul]. rewrite drop_0, take_app_length' by (symmetry; exact Hwf).
    destruct b. cbn in *. congruence.
  - rewrite <- fmap_S_seq, <- list_fmap_compose. rewrite <- IH at 2.
    apply list_fmap_ext. intros i k _. cbn. do 2 f_equal.
    apply drop_app_add'. symmetry. exact Hwf.
Qed.

(** Iterating over a stack of well-formed images gives the images back. *)
Lemma np_iter_stacked sh (imgs : list ndarray) :
  Forall (λ b, shape b = sh ∧ well_formed b) imgs →
  np_iter (stacked sh imgs) = OK imgs.
Proof.
  intros Hall. destruct imgs as [|b imgs]; [reflexivity|].
  unfold np_iter, stacked. cbn [shape data]. f_equal.
  apply np_iter_chunks, Hall.
Qed.

Lemma mapM_fmap {A B C : Type} (k : B → result C) (h : A → B) (l : list A) :
  mapM k (h <$> l) = mapM (λ x, k (h x)) l.
Proof.
  induction l as [|x l IH]; [reflexivity|].
  cbn [fmap list_fmap mapM]. rewrite IH. reflexivity.
Qed.

Lemma mapM_length {A B : Type} (k : A → result B) (l : list A) (ys : list B) :
  mapM k l = OK ys → length ys = length l.
Proof.
  revert ys. induction l as [|x l IH]; intros ys Hm.
  - injection Hm as <-. reflexivity.
  - cbn [mapM] in Hm. apply bind_OK in Hm as (y & _ & Hm).
    apply bind_OK in Hm as (ys' & Hys & [= <-]).
    cbn. f_equal. apply IH, Hys.
Qed.

(** X19. On a frame with cells and an up-to-date cache, iterating over the
    cached stack gives, for each z coordinate in order, the canvas rendered
    at that depth; and the synthetic display images are made from these
    canvases, scaled by 255, one per z coordinate. *)
Theorem synth_display_images f cl :
  cells f = Some cl →
  cache_consistent f →
  np_iter (synth_image_stack f)
  = OK (synth_slice (get_image_shape f) (simulation_config f) cl <$> z_slices f)
  ∧ generate_output_synth_images (Image := Image) f
    = mapM (λ z, Image_fromarray
                   (np_uint8 (np_scale 255
                      (synth_slice (get_image_shape f) (simulation_config f) cl z)))
                   (Some "L"%string))
           (z_slices f)
  ∧ ∀ imgs, generate_output_synth_images (Image := Image) f = OK imgs →
            length imgs = length (z_slices f).
Proof.
  intros Hc Hcons. unfold cache_consistent in Hcons.
  rewrite (generate_synth_images_Some _ _ Hc) in Hcons. injection Hcons as Hsyn.
  assert (Hit : np_iter (synth_image_stack f)
                = OK (synth_slice (get_image_shape f) (simulation_config f) cl
                        <$> z_slices f)).
  { rewrite <- Hsyn. apply np_iter_stacked, Forall_fmap, Forall_forall.
    intros z _. split; [apply synth_slice_shape | apply well_formed_synth_slice]. }
  assert (Hout : generate_output_synth_images (Image := Image) f
                 = mapM (λ z, Image_fromarray
                     (np_uint8 (np_scale 255
                        (synth_slice (get_image_shape f) (simulation_config f) cl z)))
                     (Some "L"%string)) (z_slices f)).
  { unfold generate_output_synth_images. rewrite Hit. cbn [bind]. apply mapM_fmap. }
  split; [exact Hit|]. split; [exact Hout|].
  intros imgs Himgs. rewrite Hout in Himgs. apply mapM_length in Himgs. exact Himgs.
Qed.




(** ** The export *)

Lemma column_index_Some cols col j :
  column_index cols col = Some j → cols !! j = Some col.
Proof.
  unfold column_index. destruct (list_find _ cols) as [[i x]|] eqn:Hfind;
    [| discriminate].
  intros [= <-]. apply list_find_Some in Hfind as (Hi & -> & _). exact Hi.
Qed.

Lemma column_index_elem cols col :
  col ∈ cols → ∃ j, column_index cols col = Some j.
Proof.
  intros Hin. unfold column_index.
  destruct (list_find_elem_of (λ c, c = col) cols col Hin eq_refl) as [[j x] ->].
  eauto.
Qed.

Lemma column_index_None cols col : column_index cols col = None → col ∉ cols.
Proof.
  intros Hnone Hin. apply column_index_elem in Hin as [j Hj]. congruence.
Qed.

Lemma column_index_app_l cols more col j :
  column_index cols col = Some j → column_index (cols ++ more) col = Some j.
Proof.
  unfold column_index.
  destruct (list_find _ cols) as [[i x]|] eqn:Hfind; [| discriminate].
  intros [= <-].
  assert (Happ : list_find (λ c, c = col) (cols ++ more) = Some (i, x))
    by (apply list_find_app_Some; left; exact Hfind).
  rewrite Happ. reflexivity.
Qed.

Lemma column_index_app_new cols col :
  col ∉ cols → column_index (cols ++ [col]) col = Some (length cols).
Proof.
  intros Hnew. unfold column_index.
  assert (Happ : list_find (λ c, c = col) (cols ++ [col])
                 = Some (length cols, col)).
  { apply list_find_app_Some. right. split; [lia|]. split.
    - apply list_find_None, Forall_forall. intros c Hc ->. contradiction.
    - rewrite Nat.sub_diag. cbn. rewrite decide_True by reflexivity. reflexivity. }
  rewrite Happ. reflexivity.
Qed.

Lemma add_keys_spec cols ks k : k ∈ add_keys cols ks ↔ k ∈ cols ∨ k ∈ ks.
Proof.
  unfold add_keys. revert cols. induction ks as [|k0 ks IH]; intros cols.
  - cbn. rewrite elem_of_nil. tauto.
  - cbn [foldl]. rewrite IH, elem_of_cons.
    destruct (decide (k0 ∈ cols)) as [Hin|Hin].
    + split; [tauto|]. intros [?|[->|?]]; auto.
    + rewrite elem_of_app, list_elem_of_singleton. tauto.
Qed.

Lemma union_keys_spec {V : Type} (ds : list (dict V)) k :
  k ∈ union_keys ds ↔ ∃ d, d ∈ ds ∧ k ∈ d.*1.
Proof.
  unfold union_keys.
  assert (Hgen : ∀ cols, k ∈ foldl (λ cols d, add_keys cols d.*1) cols ds
                         ↔ k ∈ cols ∨ ∃ d, d ∈ ds ∧ k ∈ d.*1).
  { induction ds as [|d0 ds IH]; intros cols.
    - cbn. split; [auto|]. intros [?|(d & Hd & _)]; [auto|].
      apply elem_of_nil in Hd as [].
    - cbn [foldl]. rewrite IH, add_keys_spec. split.
      + intros [[?|?]|(d & Hd & Hk)]; [auto | |].
        * right. exists d0. split; [left | assumption].
        * right. exists d. split; [right; exact Hd | exact Hk].
      + intros [?|(d & Hd & Hk)]; [auto|].
        apply elem_of_cons in Hd as [->|Hd]; [auto|].
        right. eauto. }
  rewrite Hgen, elem_of_nil. tauto.
Qed.

(** X21. The export has one row per cell, as many as [len(frame)] says; in
    every row the column "file" holds the image name; and every other
    parameter of a cell is found in its row under its own name. A parameter
    that is itself called "file" is overwritten by the image name. *)
Theorem export_rows f cl df :
  cells f = Some cl →
  get_cells_as_params f = OK df →
  length (records df) = length cl
  ∧ __len__ f = OK (length (records df))
  ∧ (∀ i, (i < length cl)%nat →
       df_at df i "file" = Some (Some (PStr (image_name f))))
  ∧ (∀ i c k v, cl !! i = Some c → k ≠ "file"%string →
       dict_get k (get_cell_params c) = Some v →
       df_at df i k = Some (Some v)).
Proof.
  intros Hc Hdf. unfold get_cells_as_params in Hdf.
  rewrite (cells_seq_Some _ _ Hc) in Hdf. cbn [bind] in Hdf. injection Hdf as <-.
  set (ds := get_cell_params <$> cl).
  set (cols := union_keys ds).
  assert (Hrow : ∀ i c, cl !! i = Some c →
            records (pd_DataFrame ds) !! i
            = Some ((λ col, dict_get col (get_cell_params c)) <$> cols)).
  { intros i c Hi. unfold pd_DataFrame. cbn [records]. fold cols.
    unfold ds. rewrite !list_lookup_fmap, Hi. reflexivity. }
  assert (Hlen : length (records (df_setitem (pd_DataFrame ds) "file"
                                    (PStr (image_name f)))) = length cl).
  { unfold df_setitem, pd_DataFrame. cbn [columns records].
    destruct (column_index _ _); cbn [records]; unfold ds;
      rewrite !length_fmap; reflexivity. }
  split; [exact Hlen|]. split.
  { unfold __len__. rewrite (cells_seq_Some _ _ Hc). cbn [bind]. congruence. }
  split.
  - intros i Hi. destruct (lookup_lt_is_Some_2 cl i Hi) as [c Hget].
    unfold df_at, df_setitem. cbn [columns pd_DataFrame]. fold cols.
    destruct (column_index cols "file") as [j|] eqn:Hj; cbn [records columns].
    + rewrite list_lookup_fmap, (Hrow _ _ Hget), Hj. cbn.
      apply list_lookup_insert_eq. rewrite length_fmap.
      eapply lookup_lt_Some, column_index_Some, Hj.
    + rewrite list_lookup_fmap, (Hrow _ _ Hget).
      rewrite (column_index_app_new _ _ (column_index_None _ _ Hj)). cbn.
      rewrite lookup_app_r by (rewrite length_fmap; lia).
      rewrite length_fmap, Nat.sub_diag. reflexivity.
  - intros i c k v Hget Hk Hv.
    assert (Hin : k ∈ cols).
    { apply union_keys_spec. exists (get_cell_params c). split.
      - unfold ds. apply list_elem_of_fmap. exists c. split; [reflexivity|].
        eapply list_elem_of_lookup_2, Hget.
      - clear -Hv. induction (get_cell_params c) as [|[k0 v0] d IH];
          [discriminate|].
        cbn in *. destruct (String.eqb_spec k0 k) as [->|_]; [left | right; auto]. }
    destruct (column_index_elem _ _ Hin) as [jk Hjk].
    pose proof (column_index_Some _ _ _ Hjk) as Hcol.
    assert (Hcell : ((λ col, dict_get col (get_cell_params c)) <$> cols) !! jk
                    = Some (Some v)).
    { rewrite list_lookup_fmap, Hcol. cbn. rewrite Hv. reflexivity. }
    unfold df_at, df_setitem. cbn [columns pd_DataFrame]. fold cols.
    destruct (column_index cols "file") as [j|] eqn:Hj; cbn [records columns].
    + rewrite list_lookup_fmap, (Hrow _ _ Hget), Hjk. cbn.
      rewrite list_lookup_insert_ne; [exact Hcell|].
      intros ->. apply column_index_Some in Hj. congruence.
    + rewrite list_lookup_fmap, (Hrow _ _ Hget).
      rewrite (column_index_app_l _ _ _ _ Hjk). cbn.
      rewrite lookup_app_l; [exact Hcell|].
      rewrite length_fmap. eapply lookup_lt_Some, Hcol.
Qed.

End FrameFurther.

(** * The further properties at work *)

Section FurtherRuns.
Import Toy ToyViews.

(** X2 at work: two slices. *)
Lemma z_slices_centre_and_first_run :
  init_z_slices cfg2 !! 1%nat = Some 0
  ∧ init_z_slices cfg2 !! 0%nat = Some (- 1 * 1).
Proof.
  assert (Hn : (0 < Config.z_slices cfg2)%Z) by (cbn; lia).
  exact (z_slices_centre_and_first cfg2 Hn).
Defined.

(** X4 at work: [frame0] keeps its pixel. *)
Lemma zero_padding_keeps_real_stack_run : real_image_stack frame0 = pixel 0.
Proof.
  apply (zero_padding_keeps_real_stack (pixel 0) cfg1 (Some [dot0]) "out" "img" frame0);
    reflexivity.
Defined.

(** X5 at work: no slice, a padded width of two. *)
Lemma no_slices_frame_run :
  ∃ f : Frame Dot,
    init two_pixels (Config.Build 1 0 1 0) (Some [dot0]) "out" "img" = OK f
    ∧ raises (gradient_descent f).
Proof.
  assert (Hn : (Config.z_slices (Config.Build 1 0 1 0) <= 0)%Z) by (cbn; lia).
  assert (Hp : (0 <= Config.padding (Config.Build 1 0 1 0))%Z) by (cbn; lia).
  destruct (no_slices_frame two_pixels (Config.Build 1 0 1 0) [dot0] "out" "img"
              2 1 1 Hn eq_refl Hp) as (f & Hinit & _ & _ & Hfail).
  exists f. split; [exact Hinit|]. apply Hfail. cbn. lia.
Defined.

(** X6 at work: a trial and a pass on [frame0]. *)
Lemma steps_keep_the_frame_fixed_run :
  ∃ f : Frame Dot, rtc op_step frame0 f ∧ __len__ f = OK 1%nat.
Proof.
  assert (Hsteps : ∃ f : Frame Dot, rtc op_step frame0 f).
  { eexists. eapply rtc_l.
    - eapply (step_trial frame0 [] _ _ _ _ false); reflexivity.
    - eapply rtc_l; [eapply step_pass; reflexivity | apply rtc_refl]. }
  destruct Hsteps as [f Hsteps]. exists f. split; [exact Hsteps|].
  destruct (steps_keep_the_frame_fixed frame0 f Hsteps) as (_ & _ & _ & _ & _ & _ & ->).
  reflexivity.
Defined.

(** X7 at work: a pass on a frame whose cache is out of date. *)
Lemma committing_step_repairs_cache_run :
  ¬ cache_consistent frame_stale
  ∧ ∃ f', gradient_descent frame_stale = OK f' ∧ cache_consistent f'.
Proof.
  split.
  - unfold cache_consistent. intros [= Hpix]. lra.
  - assert (Hgd : ∃ f', gradient_descent frame_stale = OK f')
      by (eexists; reflexivity).
    destruct Hgd as [f' Hgd]. exists f'. split; [exact Hgd|].
    apply (committing_step_repairs_cache frame_stale f'). left. exact Hgd.
Defined.

(** X8 at work: after a trial on [frame0]. *)
Lemma arrays_stay_well_formed_run :
  ∃ f : Frame Dot, rtc op_step frame0 f ∧ well_formed (synth_image_stack f).
Proof.
  assert (Hsteps : ∃ f : Frame Dot, rtc op_step frame0 f).
  { eexists. eapply rtc_l; [| apply rtc_refl].
    eapply (step_trial frame0 [] _ _ _ _ false); reflexivity. }
  destruct Hsteps as [f Hsteps]. exists f. split; [exact Hsteps|].
  apply (arrays_stay_well_formed (pixel 0) cfg1 (Some [dot0]) "out" "img" frame0 f
           init_frame0 Hsteps).
Defined.

(** X9 at work: a trial on [frame0]. *)
Lemma perturb_changes_one_cell_run :
  ∃ d cb f1 g', perturb frame0 [] = OK (d, cb, f1, g')
                ∧ synth_image_stack f1 = synth_image_stack frame0.
Proof.
  assert (Hp : ∃ d cb f1 g', perturb frame0 [] = OK (d, cb, f1, g'))
    by (eexists _, _, _, _; reflexivity).
  destruct Hp as (d & cb & f1 & g' & Hp). exists d, cb, f1, g'.
  split; [exact Hp|].
  destruct (perturb_changes_one_cell _ _ _ _ _ _ Hp)
    as (cl & cl1 & index & old_cell & g1 & _ & _ & _ & _ & _ & _ & Hsyn).
  exact Hsyn.
Defined.

(** X10 at work: the trial on [frame0], committed. *)
Lemma perturb_delta_is_cost_change_run :
  ∃ d (f2 : Frame Dot) old_cost new_cost,
    calculate_cost frame0 (synth_image_stack frame0) = OK old_cost
    ∧ calculate_cost f2 (synth_image_stack f2) = OK new_cost
    ∧ d = old_cost - new_cost.
Proof.
  assert (Hp : ∃ d cb f1 g' f2, perturb frame0 [] = OK (d, cb, f1, g')
                                ∧ cb false f1 = OK f2)
    by (eexists _, _, _, _, _; split; reflexivity).
  destruct Hp as (d & cb & f1 & g' & f2 & Hp & Hcb).
  destruct (perturb_delta_is_cost_change _ _ _ _ _ _ _ Hp Hcb)
    as (old_cost & new_cost & H).
  exists d, f2, old_cost, new_cost. exact H.
Defined.

(** X11 at work: the closure of the trial on [frame0], called twice. *)
Lemma finalize_twice_run :
  ∃ cb f1, (let* f2 := cb true f1 in cb true f2) = OK frame0.
Proof.
  assert (Hp : ∃ d cb f1 g', perturb frame0 [] = OK (d, cb, f1, g'))
    by (eexists _, _, _, _; reflexivity).
  destruct Hp as (d & cb & f1 & g' & Hp). exists cb, f1.
  destruct (finalize_twice _ _ _ _ _ _ Hp) as (ns & _ & Htt & _).
  exact Htt.
Defined.

(** X12 at work: a frame whose cells are not set. *)
Lemma methods_without_cells_run :
  __len__ frame_none = Err (TypeError "'NoneType' is not a sequence").
Proof. apply (methods_without_cells (Image := ndarray * option string) frame_none [] eq_refl). Defined.

(** X13 at work: a pass on a frame with no cell. *)
Lemma gradient_descent_without_cells_run : gradient_descent frame_empty = OK frame_empty.
Proof.
  assert (Hcons : cache_consistent frame_empty) by reflexivity.
  assert (Hcost : ∃ c, calculate_cost frame_empty (synth_image_stack frame_empty) = OK c)
    by (eexists; reflexivity).
  destruct Hcost as [c Hcost].
  exact (gradient_descent_without_cells frame_empty c eq_refl Hcons Hcost).
Defined.

(** X14 at work: the step for the level of the dot of [frame0]. *)
Lemma descent_step_size_run :
  ∃ orig_cost new_cost step,
    calculate_cost frame0 (synth_image_stack frame0) = OK orig_cost
    ∧ step = -1 * alpha * ((new_cost - orig_cost) / delta).
Proof.
  assert (Hcost : ∃ c, calculate_cost frame0 (synth_image_stack frame0) = OK c)
    by (eexists; reflexivity).
  destruct Hcost as [c Hcost].
  assert (Hloop : ∃ f' directions,
            gradient_loop frame0 c (seq 0 (length [dot0])) ∅ = OK (f', directions))
    by (eexists _, _; reflexivity).
  destruct Hloop as (f' & directions & Hloop).
  assert (Ht : tunable dot0 "level").
  { split; [cbn; right; left | discriminate]. }
  destruct (descent_step_size frame0 [dot0] c f' directions 0%nat dot0 "level"%string
              eq_refl Hloop eq_refl Ht) as (new_cost & step & _ & _ & Hstep & _).
  exists c, new_cost, step. split; assumption.
Defined.

(** X15 at work: the dot has no parameter called "hue". *)
Lemma probe_of_insensitive_parameter_run :
  ∃ c gradient, probe frame0 0 dot0 c "hue" = OK (frame0, gradient) ∧ gradient = 0.
Proof.
  assert (Hcons : cache_consistent frame0) by reflexivity.
  assert (Hcost : ∃ c, calculate_cost frame0 (synth_image_stack frame0) = OK c)
    by (eexists; reflexivity).
  destruct Hcost as [c Hcost]. exists c.
  apply (probe_of_insensitive_parameter frame0 [dot0] 0%nat dot0 c "hue"%string
           eq_refl eq_refl Hcons Hcost).
  cbn. do 3 f_equal. lra.
Defined.

(** X18 at work: one real slice against two synthetic ones. *)
Lemma calculate_cost_depth_mismatch_run :
  ∃ c, calculate_cost frame0 two_pixels = OK c.
Proof.
  apply (calculate_cost_depth_mismatch frame0 two_pixels 1 2 1 1 eq_refl eq_refl).
  right. left. reflexivity.
Defined.

(** X19 at work: the display image of [frame0]. *)
Lemma synth_display_images_run :
  ∃ imgs : list (ndarray * option string),
    generate_output_synth_images frame0 = OK imgs ∧ length imgs = 1%nat.
Proof.
  assert (Hcons : cache_consistent frame0) by reflexivity.
  destruct (synth_display_images (Image := ndarray * option string)
              frame0 [dot0] eq_refl Hcons) as (_ & _ & Hlen).
  eexists. split; [reflexivity|]. apply (Hlen _ eq_refl).
Defined.


(** X21 at work: the export of [frame0]. *)
Lemma export_rows_run :
  ∃ df, get_cells_as_params frame0 = OK df
        ∧ df_at df 0 "file" = Some (Some (PStr "img"))
        ∧ df_at df 0 "level" = Some (Some (PNum 0)).
Proof.
  assert (Hdf : ∃ df, get_cells_as_params frame0 = OK df) by (eexists; reflexivity).
  destruct Hdf as [df Hdf]. exists df. split; [exact Hdf|].
  destruct (export_rows frame0 [dot0] df eq_refl Hdf) as (_ & _ & Hfile & Hparam).
  split.
  - apply (Hfile 0%nat). cbn. lia.
  - apply (Hparam 0%nat dot0 "level"%string (PNum 0) eq_refl); [discriminate | reflexivity].
Defined.

End FurtherRuns.
